(** * ProEPR example notebooks: a shallow embedding and its properties

    The repository's sources are four Jupyter notebooks driving the
    labelling toolkit ([chilife], imported as [xl]), [numpy], [scipy] and
    [openmm]:

    - "Simple SDSL site pair screen"               (module [SiteScreen]),
    - "06 - Membrane Docking"                      (module [MembraneDocking]),
    - "12 - Arbitrary molecular labels"            (module [ArbitraryLabels]),
    - "13 - OpenMM Score Function"                 (module [OpenMMScore]).

    Conventions of the embedding.
    - A Python exception is a value of [exn]; a computation that may raise
      returns [result A].  Mutation of an object is explicit state passing:
      a method returns the object it leaves behind next to its result.
    - [float64] numbers are idealised as real numbers ([R]); [np.inf] is the
      missing bound [None]; NaN has no counterpart.
    - A numpy array of shape (n, 3) is a [list vec3]; an index array is a
      [list nat].
    - Calls into the toolkit, scipy and OpenMM whose code is not part of the
      notebooks are the fields of a class of inputs, one per notebook.
    - Module [Kernel] lists the statements of the cells with the names they
      read and bind; module [Control] gives the control structure of the
      cells and of the functions, run against the answers of the world.
    - Module [Spec] holds the quantities the specification names, written
      out in its own words, for comparison with what the code computes.

    The first part of the file is the embedding, the second part its
    properties, module by module. *)

From Stdlib Require Import String List ZArith Reals Lra Lia Permutation Bool Arith.
Import ListNotations.

Set Implicit Arguments.

(** * Part I: the embedding *)

(** ** Python: exceptions and fallible computations *)

Module Py.

Inductive exn : Type :=
| NameError (name : string)
| AttributeError (name : string)
| IndexError
| ValueError
| KeyError
| LibraryError (code : nat).

Inductive result (A : Type) : Type :=
| Ok (a : A)
| Raise (e : exn).

Arguments Ok {A} a.
Arguments Raise {A} e.

Definition bind {A B} (m : result A) (k : A -> result B) : result B :=
  match m with
  | Ok a => k a
  | Raise e => Raise e
  end.

(** [getattr obj name]: an attribute that was never set raises. *)
Definition getattr {A} (name : string) (slot : option A) : result A :=
  match slot with
  | Some a => Ok a
  | None => Raise (AttributeError name)
  end.

(** [hasattr obj name]. *)
Definition hasattr {A} (slot : option A) : bool :=
  match slot with
  | Some _ => true
  | None => false
  end.

(** A list comprehension [[f x for x in xs]] whose body may raise: the
    first exception ends it. *)
Fixpoint for_each {A B} (f : A -> result B) (xs : list A) : result (list B) :=
  match xs with
  | [] => Ok []
  | x :: xs' =>
      match f x with
      | Ok y => match for_each f xs' with
                | Ok ys => Ok (y :: ys)
                | Raise e => Raise e
                end
      | Raise e => Raise e
      end
  end.

End Py.

Import Py.

Declare Scope py_scope.
Delimit Scope py_scope with py.
Notation "x <- m ;; k" := (bind m (fun x => k))
  (at level 61, m at next level, right associativity) : py_scope.
Notation "' p <- m ;; k" := (bind m (fun p => k))
  (at level 61, p pattern, m at next level, right associativity) : py_scope.
Open Scope py_scope.

(** ** numpy: the array operations the notebooks use *)

Module Np.

Definition vec3 : Type := (R * R * R)%type.

Definition vx (p : vec3) : R := fst (fst p).
Definition vy (p : vec3) : R := snd (fst p).
Definition vz (p : vec3) : R := snd p.

Definition vsub (p q : vec3) : vec3 :=
  (vx p - vx q, vy p - vy q, vz p - vz q)%R.

Definition vadd (p q : vec3) : vec3 :=
  (vx p + vx q, vy p + vy q, vz p + vz q)%R.

(** [np.sum] of a one-dimensional array. *)
Definition sum (xs : list R) : R := fold_left Rplus xs 0%R.

(** [a[i] = x] on a list; the caller checks the bound. *)
Fixpoint upd {A} (i : nat) (x : A) (a : list A) : list A :=
  match a, i with
  | [], _ => []
  | _ :: t, O => x :: t
  | h :: t, S j => h :: upd j x t
  end.

(** [a[ix]] with an index array: one row per index, [IndexError] when an
    index is outside [a]. *)
Fixpoint take {A} (a : list A) (ix : list nat) : result (list A) :=
  match ix with
  | [] => Ok []
  | i :: ix' =>
      match nth_error a i with
      | Some x => rows <- take a ix' ;; Ok (x :: rows)
      | None => Raise IndexError
      end
  end.

(** The writes of [a[ix] = v], in index order: a repeated index keeps the
    last value written. *)
Fixpoint put_rows {A} (a : list A) (ix : list nat) (v : list A) : list A :=
  match ix, v with
  | i :: ix', x :: v' => put_rows (upd i x a) ix' v'
  | _, _ => a
  end.

(** [a[ix] = v] with an index array: [IndexError] when an index is outside
    [a]; [v] must have one row per index, or a single row that is broadcast;
    any other shape is a [ValueError]. *)
Definition setitem {A} (a : list A) (ix : list nat) (v : list A)
  : result (list A) :=
  if forallb (fun i => i <? length a) ix then
    if length v =? length ix then Ok (put_rows a ix v)
    else match v with
         | [x] => Ok (put_rows a ix (repeat x (length ix)))
         | _ => Raise ValueError
         end
  else Raise IndexError.

(** [x < bound] where the bound may still be [np.inf]. *)
Definition lt_bound (x : R) (bound : option R) : bool :=
  match bound with
  | None => true
  | Some b => if Rlt_dec x b then true else false
  end.

(** [np.argmin]: index of the first smallest entry; [ValueError] on an
    empty sequence. *)
Fixpoint argmin_from (best : R) (ibest i : nat) (xs : list R) : nat :=
  match xs with
  | [] => ibest
  | x :: xs' =>
      if Rlt_dec x best then argmin_from x i (S i) xs'
      else argmin_from best ibest (S i) xs'
  end.

Definition argmin (xs : list R) : result nat :=
  match xs with
  | [] => Raise ValueError
  | x :: xs' => Ok (argmin_from x 0 1 xs')
  end.

(** [np.linspace(a, b, n)]: [n] evenly spaced samples, both ends included. *)
Definition linspace (a b : R) (n : nat) : list R :=
  map (fun i => (a + INR i * ((b - a) / INR (n - 1)))%R) (seq 0 n).

(** [a - b] and [a @ b] on one-dimensional arrays of equal length. *)
Definition sub_arrays (a b : list R) : list R :=
  map (fun ab => (fst ab - snd ab)%R) (combine a b).

Definition dot (a b : list R) : R :=
  sum (map (fun ab => (fst ab * snd ab)%R) (combine a b)).

(** A 3 x 3 matrix, by rows, and the product [v @ M] of a row vector with
    it. *)
Definition mat3 : Type := (vec3 * vec3 * vec3)%type.

Definition vecmat (v : vec3) (M : mat3) : vec3 :=
  let '(r0, r1, r2) := M in
  (vx v * vx r0 + vy v * vx r1 + vz v * vx r2,
   vx v * vy r0 + vy v * vy r1 + vz v * vy r2,
   vx v * vz r0 + vy v * vz r1 + vz v * vz r2)%R.

(** [np.mean(points, axis=0)] *)
Definition mean0 (points : list vec3) : vec3 :=
  let n := INR (length points) in
  (sum (map vx points) / n, sum (map vy points) / n,
   sum (map vz points) / n)%R.

(** [np.linalg.norm] of one point. *)
Definition norm (p : vec3) : R :=
  sqrt (vx p * vx p + vy p * vy p + vz p * vz p).

End Np.

Import Np.

(** ** The toolkit's objects, as far as the notebooks touch them *)

Module Toolkit.

(** Modelled from the spec: the class behind [xl.SpinLabel] and
    [xl.RotamerEnsemble] is not among the sources.  The spec gives a label
    ensemble a [spin_centroid] attribute and a [coords] sequence of candidate
    conformations; the notebooks also read [site] and [selstr], and the
    energy function of notebook 13 stores two index maps on it, which are
    absent until then. *)
Record RotamerEnsemble : Type := {
  site : Z;
  spin_centroid : vec3;
  coords : list (list vec3);
  selstr : string;
  efunc_protein_ix : option (list nat);
  efunc_residue_ix : option (option (list nat))
}.

(** An atom selection: the indices of its atoms in the whole structure and
    their positions. *)
Record AtomGroup : Type := {
  ix : list nat;
  positions : list vec3
}.

(** What the notebooks pass to the toolkit's variadic functions: Python
    values are dynamically typed, so an argument list is a list of tagged
    values. *)
Inductive pyval : Type :=
| PStr (s : string)
| PEnsemble (e : RotamerEnsemble)
| PAtoms (g : AtomGroup)
| PGrid (r : list R).

Definition set_efunc_protein_ix (system : RotamerEnsemble) (v : list nat)
  : RotamerEnsemble :=
  {| site := site system; spin_centroid := spin_centroid system;
     coords := coords system; selstr := selstr system;
     efunc_protein_ix := Some v;
     efunc_residue_ix := efunc_residue_ix system |}.

Definition set_efunc_residue_ix (system : RotamerEnsemble)
  (v : option (list nat)) : RotamerEnsemble :=
  {| site := site system; spin_centroid := spin_centroid system;
     coords := coords system; selstr := selstr system;
     efunc_protein_ix := efunc_protein_ix system;
     efunc_residue_ix := Some v |}.

Definition is_molecule (v : pyval) : bool :=
  match v with
  | PEnsemble _ | PAtoms _ => true
  | PStr _ | PGrid _ => false
  end.

(** The label ensembles at the front of an argument list. *)
Fixpoint leading_ensembles (args : list pyval) : list RotamerEnsemble :=
  match args with
  | PEnsemble e :: rest => e :: leading_ensembles rest
  | _ => []
  end.

(** Modelled from the spec: [xl.distance_distribution] is not among the
    sources.  The spec describes "a function taking two (or more) label
    objects and a distance grid, returning a probability-density array over
    that grid": the labels come first, the grid last, and the result holds
    the density of the labels' separation at each grid point.  [density] is
    that density, which the spec leaves to the toolkit. *)
Definition distance_distribution
  (density : list RotamerEnsemble -> R -> R) (args : list pyval)
  : result (list R) :=
  match last args (PStr EmptyString) with
  | PGrid r =>
      let labels := leading_ensembles args in
      if (2 <=? length labels) && (length args =? S (length labels))
      then Ok (map (density labels) r)
      else Raise ValueError
  | _ => Raise ValueError
  end.

End Toolkit.

Import Toolkit.

(** ** scipy: the assignment problem *)

Module Scipy.

(** The cost of assigning row [a] to column [cols[a]], for every row. *)
Definition cost (diff : list (list R)) (cols : list nat) : R :=
  Np.sum (map (fun arg => nth (snd arg) (nth (fst arg) diff []) 0%R)
            (combine (seq 0 (length cols)) cols)).

(** A reference solver for square matrices: try every permutation of the
    columns and keep the first cheapest one. *)
Fixpoint insert_everywhere (x : nat) (l : list nat) : list (list nat) :=
  match l with
  | [] => [[x]]
  | y :: t => (x :: y :: t) :: map (cons y) (insert_everywhere x t)
  end.

Fixpoint permutations (l : list nat) : list (list nat) :=
  match l with
  | [] => [[]]
  | x :: t => flat_map (insert_everywhere x) (permutations t)
  end.

Fixpoint cheapest (diff : list (list R)) (best : list nat)
  (cands : list (list nat)) : list nat :=
  match cands with
  | [] => best
  | c :: cs =>
      if Rlt_dec (cost diff c) (cost diff best) then cheapest diff c cs
      else cheapest diff best cs
  end.

Definition exhaustive_assignment (diff : list (list R))
  : result (list nat * list nat) :=
  let rows := seq 0 (length diff) in
  match permutations rows with
  | [] => Raise ValueError
  | p :: ps => Ok (rows, cheapest diff p ps)
  end.

End Scipy.

Import Scipy.

(** ** Notebook 13: an OpenMM score function for repacking *)

Module OpenMMScore.

(** Temporary directories: what [TemporaryDirectory()] creates and what
    leaving its [with] block removes, in order. *)
Inductive fs_event : Type :=
| Mkdtemp (name : string)
| Rmtree (name : string).

Definition fs : Type := list fs_event.

Record ForceFieldObj (Generator : Type) : Type := {
  ff_files : list string;
  _forces : list Generator
}.

(** The toolkit, scipy and OpenMM, as the notebook calls them. *)
Class Libraries : Type := {
  MolSys : Type;
  Topology : Type;
  Generator : Type;
  OmmSystem : Type;
  Integrator : Type;
  Simulation : Type;
  atoms : MolSys -> AtomGroup;
  select_atoms : AtomGroup -> string -> result AtomGroup;
  linear_sum_assignment : list (list R) -> result (list nat * list nat);
  xl_save : list pyval -> result unit;
  (** [TemporaryDirectory()]: the name [mkdtemp] picks, by the number of
      file-system events so far, and the creation of that directory; and
      [TemporaryDirectory.cleanup()], which [__exit__] calls. *)
  tmpname : nat -> string;
  mkdtemp : string -> result unit;
  cleanup : string -> result unit;
  PDBFile_topology : string -> result Topology;
  ForceField : list string -> result (ForceFieldObj Generator);
  is_NonbondedGenerator : Generator -> bool;
  createSystem : ForceFieldObj Generator -> Topology -> result OmmSystem;
  LangevinMiddleIntegrator : result Integrator;
  Simulation_new : Topology -> OmmSystem -> Integrator -> result Simulation;
  (** [context.setPositions(pose)] followed by
      [context.getState(getEnergy=True).getPotentialEnergy()] in kcal/mol. *)
  getPotentialEnergy : Simulation -> list vec3 -> result R
}.

Section Notebook.

Context {lib : Libraries}.

Record OpenMMEnergyFunc : Type := {
  protein : AtomGroup;
  simulation : Simulation
}.

(** *** [match_atoms] *)

Definition sqdist (a b : vec3) : R :=
  let d := vsub a b in (vx d * vx d + vy d * vy d + vz d * vz d)%R.

(** [diff]: the matrix of squared distances, one row per reference atom and
    one column per atom of the rotamer. *)
Definition pairwise (reference sub : list vec3) : list (list R) :=
  map (fun a => map (sqdist a) sub) reference.

(** [diff[arg]] for a pair [arg = (a, b)]. *)
Definition getitem2 (diff : list (list R)) (arg : nat * nat) : result R :=
  match nth_error diff (fst arg) with
  | Some row =>
      match nth_error row (snd arg) with
      | Some x => Ok x
      | None => Raise IndexError
      end
  | None => Raise IndexError
  end.

(** The score of one rotamer: the assignment and the sum of its entries. *)
Definition pairing (reference sub : list vec3) : result (list nat * R) :=
  let diff := pairwise reference sub in
  ' (idx1, idx2) <- linear_sum_assignment diff ;;
  let args := combine idx1 idx2 in
  terms <- for_each (getitem2 diff) args ;;
  Ok (idx2, Np.sum terms).

Fixpoint match_atoms_loop (reference : list vec3) (subs : list (list vec3))
  (dmin_score : option R) (dmap : option (list nat))
  : result (option (list nat)) :=
  match subs with
  | [] => Ok dmap
  | sub :: rest =>
      ' (idx2, score) <- pairing reference sub ;;
      if lt_bound score dmin_score
      then match_atoms_loop reference rest (Some score) (Some idx2)
      else match_atoms_loop reference rest dmin_score dmap
  end.

Definition match_atoms (reference : AtomGroup) (subject : RotamerEnsemble)
  : result (option (list nat)) :=
  match_atoms_loop (positions reference) (coords subject) None None.

(** *** [OpenMMEnergyFunc] *)

(** [with TemporaryDirectory() as tempdir: body].  Creating the directory
    may raise, and then [body] does not run.  Otherwise [__exit__] runs the
    cleanup when the block is left, whether [body] returned or raised, and
    returns [None]: an exception of [body] goes on to the caller, unless the
    cleanup itself raises, whose exception then takes its place. *)
Definition with_TemporaryDirectory {A} (body : string -> result A) (w : fs)
  : fs * result A :=
  let tempdir := tmpname (length w) in
  match mkdtemp tempdir with
  | Raise e => (w, Raise e)
  | Ok _ =>
      let w := w ++ [Mkdtemp tempdir] in
      let r := body tempdir in
      match cleanup tempdir with
      | Ok _ => (w ++ [Rmtree tempdir], r)
      | Raise e => (w, Raise e)
      end
  end.

(** The arguments of [xl.save(f'{tempdir}/tmp.pdb', protein)]. *)
Definition init_save_args (tempdir : string) (protein : AtomGroup)
  : list pyval :=
  [PStr (append tempdir "/tmp.pdb"%string); PAtoms protein].

Definition OpenMMEnergyFunc_init (protein : MolSys) (w : fs)
  : fs * result OpenMMEnergyFunc :=
  let protein := atoms protein in
  let '(w, pdb) :=
    with_TemporaryDirectory
      (fun tempdir =>
         _ <- xl_save (init_save_args tempdir protein) ;;
         PDBFile_topology (append tempdir "/tmp.pdb"%string)) w in
  (w,
   topology <- pdb ;;
   ff <- ForceField ["amber14-all.xml"%string; "implicit/gbn2.xml"%string] ;;
   let ff := {| ff_files := ff_files ff;
                _forces := filter is_NonbondedGenerator (_forces ff) |} in
   omm_system <- createSystem ff topology ;;
   integrator <- LangevinMiddleIntegrator ;;
   sim <- Simulation_new topology omm_system integrator ;;
   Ok {| protein := protein; simulation := sim |}).

Definition prepare_system (self : OpenMMEnergyFunc) (system : RotamerEnsemble)
  : RotamerEnsemble * result unit :=
  match select_atoms (protein self) (selstr system) with
  | Raise e => (system, Raise e)
  | Ok psel =>
      let system := set_efunc_protein_ix system (ix psel) in
      match match_atoms psel system with
      | Raise e => (system, Raise e)
      | Ok dmap => (set_efunc_residue_ix system dmap, Ok tt)
      end
  end.

(** [rot[system.efunc_residue_ix]]: an index array picks rows; [None] adds
    a leading axis of length one, which the assignment drops again. *)
Definition rows_of (rot : list vec3) (rix : option (list nat))
  : result (list vec3) :=
  match rix with
  | Some rix => take rot rix
  | None => Ok rot
  end.

Fixpoint energy_loop (self : OpenMMEnergyFunc) (system : RotamerEnsemble)
  (rots : list (list vec3)) (pose_start : list vec3) (Es : list R)
  : result (list R) :=
  match rots with
  | [] => Ok Es
  | rot :: rest =>
      rix <- getattr "efunc_residue_ix"%string (efunc_residue_ix system) ;;
      v <- rows_of rot rix ;;
      pix <- getattr "efunc_protein_ix"%string (efunc_protein_ix system) ;;
      pose_start <- setitem pose_start pix v ;;
      energy <- getPotentialEnergy (simulation self) pose_start ;;
      energy_loop self system rest pose_start (Es ++ [energy])
  end.

(** [if not hasattr(system, 'efunc_protein_ix'): self.prepare_system(system)] *)
Definition ensure_prepared (self : OpenMMEnergyFunc)
  (system : RotamerEnsemble) : RotamerEnsemble * result unit :=
  if hasattr (efunc_protein_ix system) then (system, Ok tt)
  else prepare_system self system.

Definition OpenMMEnergyFunc_call (self : OpenMMEnergyFunc)
  (system : RotamerEnsemble) : RotamerEnsemble * result (list R) :=
  let '(system, prepared) := ensure_prepared self system in
  (system,
   _ <- prepared ;;
   energy_loop self system (coords system) (positions (protein self)) []).

(** *** What a call returns *)

(** [pose] is the protein pose [pose0] with the coordinates of [rot]
    substituted at the selected atoms: atom [pix[k]] of the protein sits
    where atom [rix[k]] of the rotamer is, every other atom where it was. *)
Definition substituted (pose0 : list vec3) (pix rix : list nat)
  (rot pose : list vec3) : Prop :=
  length pose = length pose0 /\
  (forall k i j, nth_error pix k = Some i -> nth_error rix k = Some j ->
     nth_error pose i = nth_error rot j) /\
  (forall i, ~ In i pix -> nth_error pose i = nth_error pose0 i).

(** [E] is the potential energy OpenMM reports for conformation [rot]. *)
Definition energy_of (self : OpenMMEnergyFunc) (pix rix : list nat)
  (rot : list vec3) (E : R) : Prop :=
  exists pose,
    substituted (positions (protein self)) pix rix rot pose /\
    getPotentialEnergy (simulation self) pose = Ok E.

(** The stored index maps fit the protein and every conformation. *)
Definition maps_fit (self : OpenMMEnergyFunc) (system : RotamerEnsemble)
  (pix rix : list nat) : Prop :=
  efunc_protein_ix system = Some pix /\
  efunc_residue_ix system = Some (Some rix) /\
  length rix = length pix /\
  NoDup pix /\
  Forall (fun i => i < length (positions (protein self))) pix /\
  Forall (fun rot => Forall (fun j => j < length rot) rix) (coords system).

(** *** The pairing [match_atoms] keeps *)

(** What scipy documents for [linear_sum_assignment] on a square cost
    matrix: the row indices are [0 .. n-1] in order, the column indices are
    a permutation of them, and no other permutation costs less. *)
Definition lsa_contract : Prop :=
  forall (n : nat) (diff : list (list R)),
    length diff = n -> Forall (fun row => length row = n) diff ->
    exists cols,
      linear_sum_assignment diff = Ok (seq 0 n, cols) /\
      Permutation cols (seq 0 n) /\
      forall cols', Permutation cols' (seq 0 n) ->
        (cost diff cols <= cost diff cols')%R.

(** The bound [dmin_score] is at most [x]; [np.inf] never is. *)
Definition bound_le (bound : option R) (x : R) : Prop :=
  match bound with
  | None => False
  | Some b => (b <= x)%R
  end.

(** The body of the loop of [__call__] for one conformation, started from
    a given pose: the energy of the pose with the conformation written at
    the selected atoms. *)
Definition energy_of_rotamer (self : OpenMMEnergyFunc)
  (system : RotamerEnsemble) (pose : list vec3) (rot : list vec3)
  : result R :=
  rix <- getattr "efunc_residue_ix"%string (efunc_residue_ix system) ;;
  v <- rows_of rot rix ;;
  pix <- getattr "efunc_protein_ix"%string (efunc_protein_ix system) ;;
  pose <- setitem pose pix v ;;
  getPotentialEnergy (simulation self) pose.

(** [sub] holds the atoms of [reference], each once, in the order [cols]:
    reference atom [a] sits where atom [cols[a]] of [sub] is. *)
Definition rearranged (reference sub : list vec3) (cols : list nat) : Prop :=
  forall a, a < length reference ->
    nth_error sub (nth a cols 0) = nth_error reference a.

End Notebook.

(** *** A small instance

    A protein of three atoms on the x axis; the selection of any residue is
    atom 1; OpenMM is replaced by a solver whose energy is the sum of the
    x coordinates, and scipy by the exhaustive solver. *)

Definition demo_lib : Libraries := {|
  MolSys := AtomGroup;
  Topology := unit;
  Generator := bool;
  OmmSystem := unit;
  Integrator := unit;
  Simulation := unit;
  atoms := fun g => g;
  select_atoms := fun g _ =>
    Ok {| ix := [1]; positions := [nth 1 (positions g) (0, 0, 0)%R] |};
  linear_sum_assignment := exhaustive_assignment;
  xl_save := fun _ => Ok tt;
  tmpname := fun _ => "tmp0"%string;
  mkdtemp := fun _ => Ok tt;
  cleanup := fun _ => Ok tt;
  PDBFile_topology := fun _ => Ok tt;
  ForceField := fun files => Ok {| ff_files := files; _forces := [true; false] |};
  is_NonbondedGenerator := fun g => g;
  createSystem := fun _ _ => Ok tt;
  LangevinMiddleIntegrator := Ok tt;
  Simulation_new := fun _ _ _ => Ok tt;
  getPotentialEnergy := fun _ pose => Ok (Np.sum (map vx pose))
|}.

Definition demo_protein : AtomGroup :=
  {| ix := [0; 1; 2];
     positions := [(0, 0, 0); (1, 0, 0); (2, 0, 0)]%R |}.

Definition demo_efunc : @OpenMMEnergyFunc demo_lib :=
  @Build_OpenMMEnergyFunc demo_lib demo_protein tt.

(** A one-atom residue with two conformations, not prepared yet. *)
Definition demo_system : RotamerEnsemble :=
  {| site := 48;
     spin_centroid := (6, 0, 0)%R;
     coords := [[(5, 0, 0)%R]; [(7, 0, 0)%R]];
     selstr := "resid 48"%string;
     efunc_protein_ix := None;
     efunc_residue_ix := None |}.

Definition demo_prepared : RotamerEnsemble :=
  set_efunc_residue_ix (set_efunc_protein_ix demo_system [1]) (Some [0]).

(** A three-atom residue with two conformations: the first lies on the
    protein's atoms in reverse order, the second is shifted off the axis. *)
Definition demo_residue : RotamerEnsemble :=
  {| site := 1;
     spin_centroid := (1, 0, 0)%R;
     coords := [[(2, 0, 0); (1, 0, 0); (0, 0, 0)]%R;
                [(0, 1, 0); (1, 1, 0); (2, 1, 0)]%R];
     selstr := "resid 1"%string;
     efunc_protein_ix := None;
     efunc_residue_ix := None |}.

(** The same instance with a toolkit whose [save] fails. *)
Definition failing_save_lib : Libraries := {|
  MolSys := AtomGroup;
  Topology := unit;
  Generator := bool;
  OmmSystem := unit;
  Integrator := unit;
  Simulation := unit;
  atoms := fun g => g;
  select_atoms := @select_atoms demo_lib;
  linear_sum_assignment := exhaustive_assignment;
  xl_save := fun _ => Raise (LibraryError 1);
  tmpname := fun _ => "tmp0"%string;
  mkdtemp := fun _ => Ok tt;
  cleanup := fun _ => Ok tt;
  PDBFile_topology := fun _ => Ok tt;
  ForceField := @ForceField demo_lib;
  is_NonbondedGenerator := fun g => g;
  createSystem := fun _ _ => Ok tt;
  LangevinMiddleIntegrator := Ok tt;
  Simulation_new := fun _ _ _ => Ok tt;
  getPotentialEnergy := @getPotentialEnergy demo_lib
|}.

(** The same instance where [xl.save] fails and then the cleanup of the
    temporary directory fails as well. *)
Definition failing_cleanup_lib : Libraries := {|
  MolSys := AtomGroup;
  Topology := unit;
  Generator := bool;
  OmmSystem := unit;
  Integrator := unit;
  Simulation := unit;
  atoms := fun g => g;
  select_atoms := @select_atoms demo_lib;
  linear_sum_assignment := exhaustive_assignment;
  xl_save := fun _ => Raise (LibraryError 1);
  tmpname := fun _ => "tmp0"%string;
  mkdtemp := fun _ => Ok tt;
  cleanup := fun _ => Raise (LibraryError 2);
  PDBFile_topology := fun _ => Ok tt;
  ForceField := @ForceField demo_lib;
  is_NonbondedGenerator := fun g => g;
  createSystem := fun _ _ => Ok tt;
  LangevinMiddleIntegrator := Ok tt;
  Simulation_new := fun _ _ _ => Ok tt;
  getPotentialEnergy := @getPotentialEnergy demo_lib
|}.

(** The same instance with a scipy whose solver fails. *)
Definition failing_assignment_lib : Libraries := {|
  MolSys := AtomGroup;
  Topology := unit;
  Generator := bool;
  OmmSystem := unit;
  Integrator := unit;
  Simulation := unit;
  atoms := fun g => g;
  select_atoms := @select_atoms demo_lib;
  linear_sum_assignment := fun _ => Raise ValueError;
  xl_save := fun _ => Ok tt;
  tmpname := fun _ => "tmp0"%string;
  mkdtemp := fun _ => Ok tt;
  cleanup := fun _ => Ok tt;
  PDBFile_topology := fun _ => Ok tt;
  ForceField := @ForceField demo_lib;
  is_NonbondedGenerator := fun g => g;
  createSystem := fun _ _ => Ok tt;
  LangevinMiddleIntegrator := Ok tt;
  Simulation_new := fun _ _ _ => Ok tt;
  getPotentialEnergy := @getPotentialEnergy demo_lib
|}.

Definition failing_assignment_efunc
  : @OpenMMEnergyFunc failing_assignment_lib :=
  @Build_OpenMMEnergyFunc failing_assignment_lib demo_protein tt.

(** The empty ensemble at residue 48. *)
Definition demo_empty : RotamerEnsemble :=
  {| site := 48;
     spin_centroid := (6, 0, 0)%R;
     coords := [];
     selstr := "resid 48"%string;
     efunc_protein_ix := None;
     efunc_residue_ix := None |}.

End OpenMMScore.

(** ** Notebook "Simple SDSL site pair screen" *)

Module SiteScreen.

(** A Python [dict] with integer keys: bindings in insertion order, one per
    key; assigning to a key that is present replaces its value in place. *)
Fixpoint dict_set {V} (k : Z) (v : V) (d : list (Z * V)) : list (Z * V) :=
  match d with
  | [] => [(k, v)]
  | (k', v') :: t =>
      if Z.eqb k k' then (k, v) :: t else (k', v') :: dict_set k v t
  end.

Fixpoint dict_get {V} (d : list (Z * V)) (k : Z) : result V :=
  match d with
  | [] => Raise KeyError
  | (k', v') :: t => if Z.eqb k k' then Ok v' else dict_get t k
  end.

(** [itertools.combinations(xs, 2)] *)
Fixpoint combinations2 {A} (xs : list A) : list (A * A) :=
  match xs with
  | [] => []
  | x :: t => map (pair x) t ++ combinations2 t
  end.

(** [xs[i]] for a Python list. *)
Definition getitem {A} (xs : list A) (i : nat) : result A :=
  match nth_error xs i with
  | Some x => Ok x
  | None => Raise IndexError
  end.

(** [t4l.residues.resnums], and the two toolkit calls made per residue:
    [xl.get_site_volume(res, t4l)] and [xl.SpinLabel('R1M', res, t4l)]. *)
Class Inputs : Type := {
  resnums : list Z;
  get_site_volume : Z -> R;
  SpinLabel : Z -> RotamerEnsemble
}.

Section Notebook.

Context {inputs : Inputs}.

Definition vols : list R := map get_site_volume resnums.

(** [np.argwhere(vols > 100).flatten()] *)
Definition select_idxs : list nat :=
  filter (fun i => if Rgt_dec (nth i vols 0%R) 100 then true else false)
    (seq 0 (length vols)).

(** [t4l.residues.resnums[select_idxs]] *)
Definition possible_residues : list Z :=
  map (fun i => nth i resnums 0%Z) select_idxs.

(** The loop filling [SLs]. *)
Definition SLs : list (Z * (RotamerEnsemble * R)) :=
  fold_left
    (fun d '(res, vol) => dict_set res (SpinLabel res, vol) d)
    (combine possible_residues (map (fun i => nth i vols 0%R) select_idxs))
    [].

(** [mean_dist / (SL2.site - SL1.site) / np.minimum(vol1, vol2)**(1/3)] *)
Definition score (mean_dist : R) (SL1 : RotamerEnsemble) (vol1 : R)
  (SL2 : RotamerEnsemble) (vol2 : R) : R :=
  (mean_dist / IZR (site SL2 - site SL1) / Rpower (Rmin vol1 vol2) (1 / 3))%R.

Definition mean_dist (SL1 SL2 : RotamerEnsemble) : R :=
  norm (vsub (spin_centroid SL1) (spin_centroid SL2)).

(** The loop over [combinations(SLs, 2)], which iterates over the keys. *)
Fixpoint screen (perms : list (Z * Z)) (pairs : list (Z * Z))
  (scores : list R) : result (list (Z * Z) * list R) :=
  match perms with
  | [] => Ok (pairs, scores)
  | perm :: rest =>
      let '(res1, res2) := perm in
      ' (SL1, vol1) <- dict_get SLs res1 ;;
      ' (SL2, vol2) <- dict_get SLs res2 ;;
      let d := mean_dist SL1 SL2 in
      if Rlt_dec d 25 then screen rest pairs scores
      else screen rest (pairs ++ [perm])
             (scores ++ [score d SL1 vol1 SL2 vol2])
  end.

Definition screened : result (list (Z * Z) * list R) :=
  screen (combinations2 (map fst SLs)) [] [].

(** [idx = np.argmin(scores); site1, site2 = pairs[idx]] *)
Definition reported : result (Z * Z) :=
  ' (pairs, scores) <- screened ;;
  idx <- argmin scores ;;
  getitem pairs idx.

(** The last cell: the distribution of the reported pair and the files
    written. *)
Definition distribution_args (SL1 SL2 : RotamerEnsemble) : list pyval :=
  [PEnsemble SL1; PEnsemble SL2; PGrid (linspace 15 80 256)].

Definition save_args (SL1 SL2 : RotamerEnsemble) (t4l : AtomGroup)
  : list pyval :=
  [PEnsemble SL1; PEnsemble SL2; PAtoms t4l].

(** The score of a pair of residues, as the loop computes it. *)
Definition pair_score (perm : Z * Z) : R :=
  let SL1 := SpinLabel (fst perm) in
  let SL2 := SpinLabel (snd perm) in
  score (mean_dist SL1 SL2) SL1 (get_site_volume (fst perm))
    SL2 (get_site_volume (snd perm)).

(** A binding of [SLs]: the label built at the residue, and its volume,
    which passed the threshold. *)
Definition screened_binding (b : Z * (RotamerEnsemble * R)) : Prop :=
  snd b = (SpinLabel (fst b), get_site_volume (fst b)) /\
  (get_site_volume (fst b) > 100)%R.

(** A pair that was appended: both volumes passed the threshold and the
    centroids are at least 25 apart. *)
Definition accepted (perm : Z * Z) : Prop :=
  (get_site_volume (fst perm) > 100)%R /\
  (get_site_volume (snd perm) > 100)%R /\
  (mean_dist (SpinLabel (fst perm)) (SpinLabel (snd perm)) >= 25)%R.

(** The test of the loop on a pair of residues: [if mean_dist < 25:
    continue] skips the pair. *)
Definition kept (perm : Z * Z) : bool :=
  if Rlt_dec (mean_dist (SpinLabel (fst perm)) (SpinLabel (snd perm))) 25
  then false else true.

End Notebook.

(** A small instance: three residues of volume 200 whose labels sit on the
    x axis at their residue number. *)
Definition demo_screen : Inputs := {|
  resnums := [4; 60; 159]%Z;
  get_site_volume := fun _ => 200%R;
  SpinLabel := fun res =>
    {| site := res; spin_centroid := (IZR res, 0, 0)%R; coords := [];
       selstr := EmptyString;
       efunc_protein_ix := None; efunc_residue_ix := None |}
|}.

End SiteScreen.

(** ** Notebook 06: membrane docking *)

Module MembraneDocking.

(** The columns of [Membrane_depths.txt], each a site and the depth measured
    there; the protein; and the calls into the toolkit and scipy:
    [xl.SpinLabel('R1M', site, protein=CPLA_C2, sample=1000)],
    [Rotation.from_euler('xyz', [x, y, z]).as_matrix()],
    [minimize(objective, ...).x],
    [CPLA_C2.select_atoms(f'name N CA C and resid {site}').positions] and
    [SL.to_site(...)], which leaves the label moved. *)
Class Inputs : Type := {
  table : list (R * R);
  CPLA_C2 : AtomGroup;
  SpinLabel : R -> RotamerEnsemble;
  from_euler_xyz : R -> R -> R -> mat3;
  minimize : (R * R * R * R -> R) -> R * R * R * R;
  select_backbone : AtomGroup -> Z -> list vec3;
  to_site : RotamerEnsemble -> list vec3 -> RotamerEnsemble
}.

Section Notebook.

Context {inputs : Inputs}.

Definition sites : list R := map fst table.
Definition depths : list R := map snd table.

Definition label_list : list RotamerEnsemble := map SpinLabel sites.

Definition spin_centroids : list vec3 := map spin_centroid label_list.

Definition spin_at_ori : list vec3 :=
  map (fun p => vsub p (mean0 spin_centroids)) spin_centroids.

Definition objective (par : R * R * R * R) : R :=
  let '(x, y, z, zdepth) := par in
  let M := from_euler_xyz x y z in
  let spin_coords :=
    map (fun v => vadd (vecmat v M) (0, 0, zdepth)%R) spin_at_ori in
  let resid := sub_arrays (map vz spin_coords) depths in
  dot resid resid.

Definition fit_x : R * R * R * R := minimize objective.

(** The third cell: the protein and the labels moved to the fitted pose. *)
Definition docked : AtomGroup :=
  let '(x, y, z, zdepth) := fit_x in
  let R := from_euler_xyz x y z in
  {| ix := ix CPLA_C2;
     positions :=
       map (fun p => vadd (vecmat (vsub p (mean0 spin_centroids)) R)
                       (0, 0, zdepth)%R)
         (positions CPLA_C2) |}.

Definition docked_labels : list RotamerEnsemble :=
  map (fun SL => to_site SL (select_backbone docked (site SL))) label_list.

Definition docked_centroids : list vec3 := map spin_centroid docked_labels.

(** The positional arguments of
    [xl.save('C2_docked.pdb', *label_list, CPLA_C2, KDE=False)]. *)
Definition save_args : list pyval :=
  PStr "C2_docked.pdb" :: map PEnsemble docked_labels ++ [PAtoms docked].

(** The depth error at one site: the z coordinate of the centred centroid
    after the rotation and the shift, minus the measured depth. *)
Definition depth_error (par : R * R * R * R) (v : vec3) (depth : R) : R :=
  let '(x, y, z, zdepth) := par in
  (vz (vadd (vecmat v (from_euler_xyz x y z)) (0, 0, zdepth)) - depth)%R.

End Notebook.

(** A small instance: three sites with their measured depths, labels given
    by [SpinLabel], and a scipy whose rotation is always the quarter turn
    about the y axis. *)
Definition demo_fit (SpinLabel : R -> RotamerEnsemble) : Inputs := {|
  table := [(48, 3); (60, 5); (72, 4)]%R;
  CPLA_C2 := OpenMMScore.demo_protein;
  SpinLabel := SpinLabel;
  from_euler_xyz := fun _ _ _ => ((0, 0, -1), (0, 1, 0), (1, 0, 0))%R;
  minimize := fun _ => (0, 0, 0, 0)%R;
  select_backbone := fun g _ => positions g;
  to_site := fun SL _ => SL
|}.

End MembraneDocking.

(** ** Notebook 12: arbitrary molecular labels *)

Module ArbitraryLabels.

(** No cell of the notebook binds [labels] or [prot]; the two calls that
    use them are functions of what those names would hold. *)

(** [r = np.linspace(15, 100, 256); xl.distance_distribution] applied to [*labels, r] *)
Definition distribution_args (labels : list RotamerEnsemble) : list pyval :=
  map PEnsemble labels ++ [PGrid (linspace 15 100 256)].

(** [xl.save] applied to [*labels, prot] *)
Definition save_args (labels : list RotamerEnsemble) (prot : AtomGroup)
  : list pyval :=
  map PEnsemble labels ++ [PAtoms prot].

End ArbitraryLabels.

(** ** The notebooks as cells run by a kernel *)

Module Kernel.

(** A statement at the top level of a cell, by the line of the notebook
    file it starts on: the global names it evaluates, in evaluation order,
    and the global names it binds.  The body of a [def] or [class] reads its
    globals when it is called, so they are listed with the statement that
    calls it; the names bound inside a comprehension are local to it. *)
Record statement : Type := {
  line : nat;
  reads : list string;
  binds : list string
}.

Definition namespace : Type := list string.

(** What a fresh kernel binds, as far as the notebooks use it. *)
Definition builtins : namespace :=
  ["zip"; "enumerate"; "print"; "isinstance"; "hasattr"]%string.

Definition bound (ns : namespace) (name : string) : bool :=
  existsb (String.eqb name) ns.

(** One statement: the first unbound name it evaluates is a [NameError];
    otherwise the calls it makes either raise, which [raised] tells by the
    statement's line, or its targets are bound. *)
Definition exec (raised : nat -> option exn) (ns : namespace)
  (st : statement) : result namespace :=
  match find (fun name => negb (bound ns name)) (reads st) with
  | Some name => Raise (NameError name)
  | None =>
      match raised (line st) with
      | Some e => Raise e
      | None => Ok (binds st ++ ns)
      end
  end.

(** "Run All": the statements of every cell in order, up to the first
    exception. *)
Fixpoint run (raised : nat -> option exn) (ns : namespace)
  (sts : list statement) : result namespace :=
  match sts with
  | [] => Ok ns
  | st :: rest => ns' <- exec raised ns st ;; run raised ns' rest
  end.

Definition run_all (raised : nat -> option exn)
  (cells : list (list statement)) : result namespace :=
  run raised builtins (concat cells).

Definition stmt (l : nat) (r b : list string) : statement :=
  {| line := l; reads := r; binds := b |}.

Definition no_error : nat -> option exn := fun _ => None.

Open Scope string_scope.

(** "Simple SDSL site pair screen" *)
Definition site_screen : list (list statement) :=
  [ [ stmt 15 [] ["combinations"];
      stmt 16 [] ["tqdm"];
      stmt 17 [] ["np"];
      stmt 18 [] ["plt"];
      stmt 19 [] ["xl"] ];
    [ stmt 41 ["xl"] ["t4l"];
      stmt 44 ["np"; "tqdm"; "t4l"; "xl"] ["vols"];
      stmt 45 ["np"; "vols"] ["select_idxs"];
      stmt 46 ["t4l"; "select_idxs"] ["possible_residues"];
      stmt 49 [] ["SLs"];
      stmt 50 ["zip"; "tqdm"; "possible_residues"; "vols"; "select_idxs"]
              ["res"; "vol"];
      stmt 51 ["xl"; "res"; "t4l"; "vol"; "SLs"] [] ];
    [ stmt 71 [] ["pairs"];
      stmt 72 [] ["scores"];
      stmt 73 ["np"] ["r"];
      stmt 74 ["tqdm"; "combinations"; "SLs"] ["perm"];
      stmt 75 ["perm"] ["res1"; "res2"];
      stmt 76 ["SLs"; "res1"; "res2"] ["SL1"; "vol1"; "SL2"; "vol2"];
      stmt 77 ["np"; "SL1"; "SL2"] ["mean_dist"];
      stmt 78 ["mean_dist"] [];
      stmt 82 ["pairs"; "perm"] [];
      stmt 83 ["scores"; "mean_dist"; "SL2"; "SL1"; "np"; "vol1"; "vol2"] [] ];
    [ stmt 102 ["np"; "scores"] ["idx"];
      stmt 103 ["pairs"; "idx"] ["site1"; "site2"];
      stmt 104 ["print"; "site1"; "site2"] [] ];
    [ stmt 125 ["SLs"; "site1"; "site2"] ["SL1"; "vol1"; "SL2"; "vol2"];
      stmt 126 ["np"] ["r"];
      stmt 127 ["xl"; "SL1"; "SL2"; "r"] ["P"];
      stmt 129 ["plt"] ["fig"; "ax"];
      stmt 130 ["ax"; "r"; "P"] [];
      stmt 133 ["ax"] [];
      stmt 134 ["ax"] [];
      stmt 135 ["ax"] ["spine"];
      stmt 136 ["spine"] [];
      stmt 137 ["ax"; "spine"] [];
      stmt 139 ["plt"] [];
      stmt 140 ["xl"; "SL1"; "SL2"; "t4l"] [] ] ].

(** "06 - Membrane Docking"; line 73 calls [objective] through
    [minimize]. *)
Definition membrane_docking : list (list statement) :=
  [ [ stmt 25 [] ["np"];
      stmt 26 [] ["Rotation"];
      stmt 27 [] ["minimize"];
      stmt 28 [] ["xl"] ];
    [ stmt 48 ["xl"] ["CPLA_C2"];
      stmt 49 ["np"] ["sites"; "depths"];
      stmt 52 ["sites"; "xl"; "CPLA_C2"] ["label_list"];
      stmt 53 ["np"; "label_list"] ["spin_centroids"];
      stmt 56 ["spin_centroids"; "np"] ["spin_at_ori"];
      stmt 59 [] ["objective"];
      stmt 73 ["minimize"; "objective"; "Rotation"; "spin_at_ori"; "np";
               "depths"] ["fit"] ];
    [ stmt 83 ["Rotation"; "fit"] ["R"];
      stmt 84 ["CPLA_C2"; "np"; "spin_centroids"; "R"; "fit"] [];
      stmt 87 ["np"; "spin_centroids"] ["spin_centroids"];
      stmt 88 ["enumerate"; "label_list"] ["i"; "SL"];
      stmt 89 ["SL"; "CPLA_C2"] [];
      stmt 90 ["SL"; "spin_centroids"; "i"] [];
      stmt 93 ["xl"; "label_list"; "CPLA_C2"] [] ];
    [ stmt 115 [] ["plt"];
      stmt 116 ["plt"; "sites"; "depths"] [];
      stmt 117 ["plt"; "sites"; "spin_centroids"] [];
      stmt 118 ["plt"] [];
      stmt 119 ["plt"] [];
      stmt 120 ["plt"] [];
      stmt 121 ["plt"] [] ] ].

(** "12 - Arbitrary molecular labels" *)
Definition arbitrary_labels : list (list statement) :=
  [ [ stmt 18 [] ["np"];
      stmt 19 [] ["plt"];
      stmt 20 [] ["xl"];
      stmt 21 ["plt"] [] ];
    [ stmt 58 [] ["aln_atoms"];
      stmt 59 [] ["spin_atoms"];
      stmt 61 ["xl"; "aln_atoms"; "spin_atoms"] [] ];
    [ stmt 103 ["xl"] [] ];
    [ stmt 121 ["np"] ["r"];
      stmt 122 ["xl"; "labels"; "r"] ["P"] ];
    [ stmt 143 ["plt"] ["fig"; "ax"];
      stmt 144 ["ax"; "r"; "P"] [];
      stmt 145 ["ax"] [];
      stmt 146 ["ax"] [];
      stmt 147 ["ax"] ["spine"];
      stmt 148 ["spine"] [];
      stmt 150 ["ax"; "spine"] [];
      stmt 152 ["plt"] [];
      stmt 153 ["xl"; "labels"; "prot"] [] ] ].

(** "13 - OpenMM Score Function"; the star imports of lines 40 and 41 bind
    the OpenMM names the class uses; line 152 runs [__init__], lines 155
    and 174 call the energy function, hence [prepare_system] and
    [match_atoms]. *)
Definition openmm_score : list (list statement) :=
  [ [ stmt 33 [] ["np"];
      stmt 34 [] ["linear_sum_assignment"];
      stmt 35 [] ["plt"];
      stmt 37 [] ["xl"];
      stmt 38 [] ["TemporaryDirectory"];
      stmt 40 [] ["unit"; "LangevinMiddleIntegrator"];
      stmt 41 [] ["PDBFile"; "ForceField"; "forcefield"; "CutoffNonPeriodic";
                  "Simulation"] ];
    [ stmt 51 [] ["match_atoms"];
      stmt 81 [] ["OpenMMEnergyFunc"] ];
    [ stmt 149 ["xl"] ["protein"];
      stmt 152 ["OpenMMEnergyFunc"; "protein"; "TemporaryDirectory"; "xl";
                "PDBFile"; "ForceField"; "isinstance"; "forcefield";
                "CutoffNonPeriodic"; "unit"; "LangevinMiddleIntegrator";
                "Simulation"] ["omm_efunc"];
      stmt 155 ["xl"; "protein"; "omm_efunc"; "hasattr"; "match_atoms"; "np";
                "enumerate"; "linear_sum_assignment"; "zip"; "unit"] ["RL"] ];
    [ stmt 174 ["xl"; "protein"; "RL"; "omm_efunc"; "hasattr"; "match_atoms";
                "np"; "enumerate"; "linear_sum_assignment"; "zip"; "unit"]
               ["traj"; "de"] ];
    [ stmt 195 ["plt"] ["fig"; "ax"];
      stmt 196 ["ax"; "np"; "de"] [];
      stmt 198 ["ax"] [];
      stmt 199 ["ax"] [];
      stmt 200 ["plt"] [] ] ].

Close Scope string_scope.

Definition notebooks : list (list (list statement)) :=
  [site_screen; membrane_docking; arbitrary_labels; openmm_score].

(** A run that met no exception. *)
Definition completes (r : result namespace) : bool :=
  match r with
  | Ok _ => true
  | Raise _ => false
  end.

End Kernel.

(** ** The control structure of the authored code *)

Module Control.

(** The statements of a cell or of a function body, by the line of the
    notebook file they start on.  A simple statement is [Do]: whatever it
    evaluates and calls may raise.  [Invoke] is a simple statement that calls
    a function written in the same notebook, whose body is [callee].  [With]
    is [with TemporaryDirectory() as tempdir: body], the only context
    manager the notebooks use; [Try] is [try: body except: handler]. *)
Inductive code : Type :=
| Pass
| Do (line : nat)
| Seq (first rest : code)
| If (line : nat) (body orelse : code)
| For (line : nat) (body : code)
| Continue (line : nat)
| Return (line : nat)
| Invoke (line : nat) (callee : code)
| With (line : nat) (body : code)
| Try (body handler : code).

Definition block (stmts : list code) : code := fold_right Seq Pass stmts.

(** What the world answers at each point a run reaches, in the order the
    run reaches them: an operation raises ([Fail]) or returns (anything
    else); the test of an [if] holds ([Go]) or not; the head of a [for]
    yields so many items ([Loop]). *)
Inductive answer : Type :=
| Go
| Stop
| Loop (items : nat)
| Fail (e : exn).

(** What a run did: the operations of a line returned or raised, and the
    cleanup run on leaving the [with] block of a line returned or raised. *)
Inductive event : Type :=
| Step (line : nat) (raised : option exn)
| Exit (line : nat) (raised : option exn).

Inductive outcome : Type :=
| Normal
| Continued
| Returned
| Raised (e : exn).

Definition state : Type := (list event * outcome * list answer)%type.

(** One operation at [line]; [next] goes on when it returned. *)
Definition operation (line : nat) (s : list answer)
  (next : list answer -> state) : state :=
  match s with
  | Fail e :: s' => ([Step line (Some e)], Raised e, s')
  | _ => let '(t, o, s') := next (tl s) in (Step line None :: t, o, s')
  end.

(** The iterations of [for ... in ...: body]: the iterator is advanced at
    [line], which may raise; [continue] and the end of the body go on with
    the next item, [return] and an exception leave the loop. *)
Fixpoint iterations (body : list answer -> state) (line : nat) (items : nat)
  (s : list answer) : state :=
  match items with
  | 0 => ([], Normal, s)
  | S items' =>
      operation line s (fun s =>
        let '(t1, o1, s1) := body s in
        match o1 with
        | Normal | Continued =>
            let '(t2, o2, s2) := iterations body line items' s1 in
            (t1 ++ t2, o2, s2)
        | _ => (t1, o1, s1)
        end)
  end.

Fixpoint run (c : code) (s : list answer) : state :=
  match c with
  | Pass => ([], Normal, s)
  | Do line => operation line s (fun s => ([], Normal, s))
  | Seq first rest =>
      let '(t1, o1, s1) := run first s in
      match o1 with
      | Normal => let '(t2, o2, s2) := run rest s1 in (t1 ++ t2, o2, s2)
      | _ => (t1, o1, s1)
      end
  | If line body orelse =>
      match s with
      | Go :: _ => operation line s (run body)
      | _ => operation line s (run orelse)
      end
  | For line body =>
      match s with
      | Loop items :: _ => operation line s (iterations (run body) line items)
      | _ => operation line s (fun s => ([], Normal, s))
      end
  | Continue _ => ([], Continued, s)
  | Return line => operation line s (fun s => ([], Returned, s))
  | Invoke line callee =>
      operation line s (fun s =>
        let '(t, o, s1) := run callee s in
        match o with
        | Raised e => (t, Raised e, s1)
        | _ =>
            let '(t', o', s2) := operation line s1 (fun s => ([], Normal, s)) in
            (t ++ t', o', s2)
        end)
  | With line body =>
      operation line s (fun s =>
        let '(t, o, s1) := run body s in
        match s1 with
        | Fail e :: s2 => (t ++ [Exit line (Some e)], Raised e, s2)
        | _ => (t ++ [Exit line None], o, tl s1)
        end)
  | Try body handler =>
      let '(t, o, s1) := run body s in
      match o with
      | Raised _ =>
          let '(t', o', s2) := run handler s1 in (t ++ t', o', s2)
      | _ => (t, o, s1)
      end
  end.

Definition trace (r : state) : list event := fst (fst r).
Definition result_of (r : state) : outcome := snd (fst r).

(** *** The notebooks *)

(** "Simple SDSL site pair screen" *)
Definition site_screen : code :=
  block
    [ Do 15; Do 16; Do 17; Do 18; Do 19;
      Do 41; Do 44; Do 45; Do 46; Do 49;
      For 50 (Do 51);
      Do 71; Do 72; Do 73;
      For 74
        (block [Do 75; Do 76; Do 77; If 78 (Continue 79) Pass; Do 82; Do 83]);
      Do 102; Do 103; Do 104;
      Do 125; Do 126; Do 127; Do 129; Do 130; Do 133; Do 134;
      For 135 (block [If 136 (Continue 136) Pass; Do 137]);
      Do 139; Do 140 ].

(** "06 - Membrane Docking": the cells, and the body of [objective], which
    scipy's [minimize] calls from line 73. *)
Definition membrane_docking : code :=
  block
    [ Do 25; Do 26; Do 27; Do 28;
      Do 48; Do 49; Do 52; Do 53; Do 56; Do 59; Do 73;
      Do 83; Do 84; Do 87;
      For 88 (block [Do 89; Do 90]);
      Do 93;
      Do 115; Do 116; Do 117; Do 118; Do 119; Do 120; Do 121 ].

Definition objective : code :=
  block [Do 60; Do 63; Do 64; Do 67; Do 70; Return 71].

(** "12 - Arbitrary molecular labels" *)
Definition arbitrary_labels : code :=
  block
    [ Do 18; Do 19; Do 20; Do 21;
      Do 58; Do 59; Do 61;
      Do 103;
      Do 121; Do 122;
      Do 143; Do 144; Do 145; Do 146;
      For 147 (block [If 148 (Continue 149) Pass; Do 150]);
      Do 152; Do 153 ].

(** "13 - OpenMM Score Function": the functions, the cells, of which line
    152 runs [__init__], and the body of [__call__], which the toolkit calls
    from lines 155 and 174. *)
Definition match_atoms : code :=
  block
    [ Do 57; Do 58;
      For 61
        (block [Do 64; Do 65; Do 66; Do 69; Do 70; Do 71;
                If 74 (block [Do 75; Do 76]) Pass]);
      Return 78 ].

Definition OpenMMEnergyFunc_init : code :=
  block
    [ Do 90; Do 91;
      With 94 (block [Do 95; Do 96]);
      Do 99; Do 102; Do 105; Do 106; Do 107 ].

Definition prepare_system : code :=
  block [Do 114; Do 115; Invoke 116 match_atoms].

Definition OpenMMEnergyFunc_call : code :=
  block
    [ If 121 (Invoke 122 prepare_system) Pass;
      Do 124; Do 126;
      For 127 (block [Do 128; Do 129; Do 130; Do 131]);
      Do 133; Return 134 ].

Definition openmm_score : code :=
  block
    [ Do 33; Do 34; Do 35; Do 37; Do 38; Do 40; Do 41;
      Do 51; Do 81;
      Do 149; Invoke 152 OpenMMEnergyFunc_init; Do 155;
      Do 174;
      Do 195; Do 196; Do 198; Do 199; Do 200 ].

(** Everything that is run from the top level of a notebook, and the two
    functions that a library calls back. *)
Definition authored : list code :=
  [site_screen; membrane_docking; objective; arbitrary_labels;
   openmm_score; OpenMMEnergyFunc_call].

(** *** What the code is made of *)

(** The handlers of a piece of code, the functions it calls included. *)
Fixpoint handlers (c : code) : nat :=
  match c with
  | Pass | Do _ | Continue _ | Return _ => 0
  | Seq a b | If _ a b => handlers a + handlers b
  | For _ a | Invoke _ a | With _ a => handlers a
  | Try a b => S (handlers a + handlers b)
  end.

(** The lines whose operations may raise. *)
Fixpoint lines (c : code) : list nat :=
  match c with
  | Pass | Continue _ => []
  | Do l | Return l => [l]
  | Seq a b => lines a ++ lines b
  | If l a b => l :: lines a ++ lines b
  | For l a | Invoke l a | With l a => l :: lines a
  | Try a b => lines a ++ lines b
  end.

(** The same lines, those inside the body of a [with] block left out. *)
Fixpoint outside (c : code) : list nat :=
  match c with
  | Pass | Continue _ => []
  | Do l | Return l => [l]
  | Seq a b => outside a ++ outside b
  | If l a b => l :: outside a ++ outside b
  | For l a | Invoke l a => l :: outside a
  | With l _ => [l]
  | Try a b => outside a ++ outside b
  end.

(** The [with] blocks: the line of each and the lines of its body. *)
Fixpoint withs (c : code) : list (nat * list nat) :=
  match c with
  | Pass | Do _ | Continue _ | Return _ => []
  | Seq a b | If _ a b | Try a b => withs a ++ withs b
  | For _ a | Invoke _ a => withs a
  | With l a => (l, lines a) :: withs a
  end.

(** The statements of the cells, function bodies left out: the lines the
    kernel of module [Kernel] runs. *)
Fixpoint statements (c : code) : list nat :=
  match c with
  | Pass | Continue _ => []
  | Do l | Return l | Invoke l _ => [l]
  | Seq a b => statements a ++ statements b
  | If l a b => l :: statements a ++ statements b
  | For l a | With l a => l :: statements a
  | Try a b => statements a ++ statements b
  end.

(** *** How an exception leaves *)

Definition returned (ev : event) : Prop :=
  match ev with
  | Step _ r | Exit _ r => r = None
  end.

(** A run either met no exception, or everything returned up to an
    operation that raised.  When that operation is outside the [with]
    blocks ([where_]), nothing ran after it.  When it is in the body of a
    [with] block ([blocks]), the cleanup of that block ran after it and
    nothing else.  The exception that leaves is the one raised, unless the
    cleanup raised, whose exception then leaves instead.  The cleanup can
    also raise after a body that returned. *)
Inductive escapes (where_ : list nat) (blocks : list (nat * list nat))
  : list event -> outcome -> Prop :=
| nothing_raised (pre : list event) (o : outcome) :
    Forall returned pre -> (forall e, o <> Raised e) ->
    escapes where_ blocks pre o
| raised_last (pre : list event) (l : nat) (e : exn) :
    Forall returned pre -> In l where_ ->
    escapes where_ blocks (pre ++ [Step l (Some e)]) (Raised e)
| raised_in_with (pre : list event) (w : nat) (ls : list nat) (l : nat)
    (e : exn) :
    Forall returned pre -> In (w, ls) blocks -> In l ls ->
    escapes where_ blocks (pre ++ [Step l (Some e); Exit w None]) (Raised e)
| replaced_by_cleanup (pre : list event) (w : nat) (ls : list nat) (l : nat)
    (e e' : exn) :
    Forall returned pre -> In (w, ls) blocks -> In l ls ->
    escapes where_ blocks (pre ++ [Step l (Some e); Exit w (Some e')])
      (Raised e')
| cleanup_raised (pre : list event) (w : nat) (ls : list nat) (e' : exn) :
    Forall returned pre -> In (w, ls) blocks ->
    escapes where_ blocks (pre ++ [Exit w (Some e')]) (Raised e').

(** No handler, and no [with] block inside another. *)
Fixpoint plain (c : code) : bool :=
  match c with
  | Pass | Do _ | Continue _ | Return _ => true
  | Seq a b | If _ a b => plain a && plain b
  | For _ a | Invoke _ a => plain a
  | With _ _ | Try _ _ => false
  end.

Fixpoint flat (c : code) : bool :=
  match c with
  | Pass | Do _ | Continue _ | Return _ => true
  | Seq a b | If _ a b => flat a && flat b
  | For _ a | Invoke _ a => flat a
  | With _ a => plain a
  | Try _ _ => false
  end.

End Control.

(** ** The claims in their own words *)

(** Definitions that follow the text of the specification's claims instead
    of the code: the distances, sums and scores the claims name, written out
    coordinate by coordinate, for comparison with what the code computes. *)
Module Spec.

(** The sum of a list of numbers. *)
Definition total (xs : list R) : R := fold_right Rplus 0%R xs.


(** The squared distance of two points, and their Euclidean distance. *)
Definition squared_distance (p q : vec3) : R :=
  let '(x, y, z) := p in
  let '(x', y', z') := q in
  ((x - x') * (x - x') + (y - y') * (y - y') + (z - z') * (z - z'))%R.

Definition euclidean_distance (p q : vec3) : R :=
  sqrt (squared_distance p q).

(** C6: the cost of pairing reference atom [a] with atom [cols[a]] of a
    rotamer, for every reference atom: the sum of the squared distances of
    the paired atoms. *)
Definition sum_of_squared_distances (reference sub : list vec3)
  (cols : list nat) : R :=
  total
    (map (fun a => squared_distance (nth a reference (0, 0, 0)%R)
                     (nth (nth a cols 0) sub (0, 0, 0)%R))
       (seq 0 (length reference))).

(** C5: the score of a pair of labels at [site1] and [site2], [mean_dist]
    apart, with site volumes [vol1] and [vol2]:
    mean_dist / (site2 - site1) / min(vol1, vol2)^(1/3). *)
Definition site_pair_score (mean_dist : R) (site1 site2 : Z) (vol1 vol2 : R)
  : R :=
  (mean_dist / IZR (site2 - site1) / Rpower (Rmin vol1 vol2) (1 / 3))%R.

(** The score of the pair of residues [perm] of the site screen: the
    labels built at the two residues, their distance, their sites and the
    site volumes of the residues. *)
Definition score_of_pair {inputs : SiteScreen.Inputs} (perm : Z * Z) : R :=
  let SL1 := SiteScreen.SpinLabel (fst perm) in
  let SL2 := SiteScreen.SpinLabel (snd perm) in
  site_pair_score
    (euclidean_distance (spin_centroid SL1) (spin_centroid SL2))
    (site SL1) (site SL2)
    (SiteScreen.get_site_volume (fst perm))
    (SiteScreen.get_site_volume (snd perm)).




End Spec.

(** ** Properties across the notebooks *)

Module Repository.

Import OpenMMScore.

(** *** The calls to [xl.save] *)

(** An output path first, then label and protein objects only. *)
Definition path_then_molecules (args : list pyval) : Prop :=
  exists path objs,
    args = PStr path :: objs /\ forallb is_molecule objs = true.

(** The four calls of the repository: the last cell of the site screen,
    the third cell of the membrane docking, the last cell of notebook 12 and
    [OpenMMEnergyFunc.__init__]. *)
Definition every_save_call_passes_a_path : Prop :=
  (forall SL1 SL2 t4l, path_then_molecules (SiteScreen.save_args SL1 SL2 t4l))
  /\
  (forall docking : MembraneDocking.Inputs,
     path_then_molecules (@MembraneDocking.save_args docking))
  /\
  (forall labels prot,
     path_then_molecules (ArbitraryLabels.save_args labels prot))
  /\
  (forall tempdir protein,
     path_then_molecules (init_save_args tempdir protein)).

(** *** The attributes of a label ensemble that the notebooks read *)

(** The two attributes the spec names. *)
Definition labels_are_read_through_spin_centroid_and_coords : Prop :=
  forall SL1 SL1' SL2 vol1 vol2,
    spin_centroid SL1 = spin_centroid SL1' ->
    coords SL1 = coords SL1' ->
    SiteScreen.score (SiteScreen.mean_dist SL1 SL2) SL1 vol1 SL2 vol2
    = SiteScreen.score (SiteScreen.mean_dist SL1' SL2) SL1' vol1 SL2 vol2.

Definition label_at (s : Z) (c : vec3) : RotamerEnsemble :=
  {| site := s; spin_centroid := c; coords := []; selstr := EmptyString;
     efunc_protein_ix := None; efunc_residue_ix := None |}.

(** The attributes the energy function reads or stores. *)
Definition same_for_efunc (s s' : RotamerEnsemble) : Prop :=
  coords s = coords s' /\ selstr s = selstr s' /\
  efunc_protein_ix s = efunc_protein_ix s' /\
  efunc_residue_ix s = efunc_residue_ix s'.

(** *** The energy function *)

(** C1 in its words: with libraries that return, the call on any system
    returns one energy for each of its conformations. *)
Definition every_system_gets_one_energy_per_conformation : Prop :=
  forall (lib : Libraries) (self : OpenMMEnergyFunc)
    (system : RotamerEnsemble),
    lsa_contract ->
    (forall group selection,
       exists psel, select_atoms group selection = Ok psel) ->
    (forall pose, exists E, getPotentialEnergy (simulation self) pose = Ok E) ->
    exists Es,
      snd (OpenMMEnergyFunc_call self system) = Ok Es /\
      length Es = length (coords system).

(** *** Exceptions *)

Definition answer_of {A} (r : result A) : Control.answer :=
  match r with
  | Ok _ => Control.Go
  | Raise e => Control.Fail e
  end.

Definition outcome_of {A} (r : result A) : Control.outcome :=
  match r with
  | Ok _ => Control.Normal
  | Raise e => Control.Raised e
  end.

(** What the libraries of module [OpenMMScore] answer to the operations of
    [OpenMMEnergyFunc.__init__], in the order the lines of
    [Control.OpenMMEnergyFunc_init] ask: lines 90 and 91, the creation of
    the directory at line 94, [xl.save] at line 95, [PDBFile] at line 96,
    the cleanup on leaving the block, and lines 99 to 107. *)
Definition init_answers {lib : Libraries} (protein : MolSys) (w : fs)
  : list Control.answer :=
  let tempdir := tmpname (length w) in
  let path := append tempdir "/tmp.pdb"%string in
  Control.Go :: Control.Go ::
  match mkdtemp tempdir with
  | Raise e => [Control.Fail e]
  | Ok _ =>
      Control.Go ::
      match xl_save (init_save_args tempdir (atoms protein)) with
      | Raise e => [Control.Fail e; answer_of (cleanup tempdir)]
      | Ok _ =>
          Control.Go ::
          match PDBFile_topology path with
          | Raise e => [Control.Fail e; answer_of (cleanup tempdir)]
          | Ok topology =>
              Control.Go ::
              match cleanup tempdir with
              | Raise e => [Control.Fail e]
              | Ok _ =>
                  Control.Go ::
                  match ForceField ["amber14-all.xml"%string;
                                    "implicit/gbn2.xml"%string] with
                  | Raise e => [Control.Fail e]
                  | Ok ff =>
                      let ff :=
                        {| ff_files := ff_files ff;
                           _forces := filter is_NonbondedGenerator
                                        (_forces ff) |} in
                      Control.Go :: Control.Go ::
                      match createSystem ff topology with
                      | Raise e => [Control.Fail e]
                      | Ok omm_system =>
                          Control.Go ::
                          match LangevinMiddleIntegrator with
                          | Raise e => [Control.Fail e]
                          | Ok integrator =>
                              Control.Go ::
                              [answer_of (Simulation_new topology omm_system
                                            integrator)]
                          end
                      end
                  end
              end
          end
      end
  end.

(** C8 in its words: once an operation has raised, nothing authored runs
    any more, and the exception that was raised is the one that leaves. *)
Definition nothing_runs_after_an_exception : Prop :=
  forall c s, In c Control.authored ->
  forall pre l e post,
    Control.trace (Control.run c s) = pre ++ Control.Step l (Some e) :: post ->
    post = [] /\ Control.result_of (Control.run c s) = Control.Raised e.

End Repository.

(** * Part II: properties *)

(** ** The array operations *)

(** Facts about the array operations. *)
Module NpFacts.

Lemma length_upd {A} (i : nat) (x : A) (a : list A) :
  length (upd i x a) = length a.
Proof.
  revert i; induction a as [|h t IH]; intros [|j]; simpl; auto.
Qed.

Lemma nth_error_upd_same {A} (i : nat) (x : A) (a : list A) :
  i < length a -> nth_error (upd i x a) i = Some x.
Proof.
  revert i; induction a as [|h t IH]; intros [|j] Hi; simpl in *;
    try lia; auto.
  apply IH; lia.
Qed.

Lemma nth_error_upd_other {A} (i j : nat) (x : A) (a : list A) :
  i <> j -> nth_error (upd i x a) j = nth_error a j.
Proof.
  revert i j; induction a as [|h t IH]; intros [|i] [|j] Hij; simpl;
    try congruence; auto.
Qed.

Lemma put_rows_length {A} (ix : list nat) (v a : list A) :
  length (put_rows a ix v) = length a.
Proof.
  revert v a; induction ix as [|i ix IH]; intros [|x v] a; simpl; auto.
  rewrite IH; apply length_upd.
Qed.

Lemma put_rows_outside {A} (ix : list nat) (v a : list A) (j : nat) :
  ~ In j ix -> nth_error (put_rows a ix v) j = nth_error a j.
Proof.
  revert v a; induction ix as [|i ix IH]; intros [|x v] a Hj; simpl; auto.
  rewrite IH by (intro; apply Hj; now right).
  apply nth_error_upd_other; intro; apply Hj; now left.
Qed.

Lemma put_rows_at {A} (ix : list nat) (v a : list A) (k i : nat) :
  NoDup ix -> length v = length ix -> Forall (fun i => i < length a) ix ->
  nth_error ix k = Some i ->
  nth_error (put_rows a ix v) i = nth_error v k.
Proof.
  revert v a k; induction ix as [|i0 ix IH]; intros [|x v] a k Hnd Hlen Hin Hk;
    simpl in *; try discriminate; try (destruct k; discriminate).
  inversion Hnd as [|? ? Hnotin Hnd']; subst.
  inversion Hin as [|? ? Hi0 Hin']; subst.
  destruct k as [|k]; simpl in *.
  - injection Hk as <-.
    rewrite put_rows_outside by assumption.
    now apply nth_error_upd_same.
  - apply IH; auto.
    rewrite length_upd; assumption.
Qed.

Lemma take_ok {A} (a : list A) (ix : list nat) :
  Forall (fun i => i < length a) ix ->
  exists v, take a ix = Ok v /\ length v = length ix /\
    forall k i, nth_error ix k = Some i -> nth_error v k = nth_error a i.
Proof.
  induction ix as [|i ix IH]; intros Hin; simpl.
  - exists []; repeat split; auto. intros [|k] i; discriminate.
  - inversion Hin as [|? ? Hi Hin']; subst.
    destruct (IH Hin') as (v & -> & Hlen & Hnth).
    destruct (nth_error a i) as [x|] eqn:Hx.
    + exists (x :: v); simpl; repeat split; auto.
      intros [|k] j Hk; simpl in *; [injection Hk as <-; now rewrite Hx | auto].
    + apply nth_error_None in Hx; lia.
Qed.

Lemma setitem_ok {A} (a : list A) (ix : list nat) (v : list A) :
  Forall (fun i => i < length a) ix -> length v = length ix ->
  setitem a ix v = Ok (put_rows a ix v).
Proof.
  intros Hin Hlen; unfold setitem.
  replace (forallb (fun i => i <? length a) ix) with true.
  - now rewrite Hlen, Nat.eqb_refl.
  - symmetry; apply forallb_forall; intros i Hi.
    rewrite Forall_forall in Hin; apply Nat.ltb_lt; auto.
Qed.

Lemma fold_left_Rplus_ge (xs : list R) (a : R) :
  Forall (fun x => (0 <= x)%R) xs -> (a <= fold_left Rplus xs a)%R.
Proof.
  revert a; induction xs as [|x xs IH]; intros a Hpos; simpl; [lra|].
  inversion Hpos as [|? ? Hx Hxs]; subst.
  specialize (IH (a + x)%R Hxs); lra.
Qed.

Lemma sum_nonneg (xs : list R) :
  Forall (fun x => (0 <= x)%R) xs -> (0 <= Np.sum xs)%R.
Proof.
  intros H; unfold Np.sum; now apply fold_left_Rplus_ge.
Qed.

Lemma skipn_cons_nth_error {A} (i : nat) (l : list A) (x : A) (t : list A) :
  skipn i l = x :: t -> nth_error l i = Some x /\ skipn (S i) l = t.
Proof.
  revert l; induction i as [|i IH]; intros [|y l] H; simpl in *;
    try discriminate.
  - injection H as -> ->; auto.
  - now apply IH.
Qed.

(** [argmin_from] scans the tail [xs] of [all] that starts at index [i],
    holding the least entry seen so far and its index. *)
Lemma argmin_from_spec (all : list R) :
  forall xs best ibest i,
    nth_error all ibest = Some best ->
    skipn i all = xs ->
    (forall j x, j < i -> nth_error all j = Some x -> (best <= x)%R) ->
    exists v,
      nth_error all (argmin_from best ibest i xs) = Some v /\
      forall j x, nth_error all j = Some x -> (v <= x)%R.
Proof.
  induction xs as [|y xs IH]; intros best ibest i Hbest Hskip Hseen; simpl.
  - exists best; split; auto.
    intros j x Hj. apply (Hseen j x); auto.
    destruct (Nat.lt_ge_cases j i) as [|Hge]; auto.
    assert (Hlen : length (skipn i all) = 0) by now rewrite Hskip.
    rewrite length_skipn in Hlen.
    assert (j < length all) by (apply nth_error_Some; congruence). lia.
  - apply skipn_cons_nth_error in Hskip as (Hy & Hskip).
    destruct (Rlt_dec y best) as [Hlt|Hge].
    + apply IH; auto.
      intros j x Hj Hx.
      destruct (Nat.eq_dec j i) as [->|Hne].
      * rewrite Hy in Hx; injection Hx as <-; lra.
      * specialize (Hseen j x ltac:(lia) Hx); lra.
    + apply IH; auto.
      intros j x Hj Hx.
      destruct (Nat.eq_dec j i) as [->|Hne].
      * rewrite Hy in Hx; injection Hx as <-; lra.
      * apply (Hseen j x); auto; lia.
Qed.

Lemma argmin_spec (xs : list R) :
  match argmin xs with
  | Ok i => exists v, nth_error xs i = Some v /\
                      forall j x, nth_error xs j = Some x -> (v <= x)%R
  | Raise e => xs = [] /\ e = ValueError
  end.
Proof.
  destruct xs as [|x xs]; simpl; auto.
  apply (@argmin_from_spec (x :: xs) xs x 0 1); auto.
  intros [|j] y Hj Hy; [|lia]. injection Hy as <-; lra.
Qed.

(** [np.sum] adds from the left; the order does not matter. *)
Lemma sum_total (xs : list R) : Np.sum xs = Spec.total xs.
Proof.
  unfold Np.sum, Spec.total. apply fold_symmetric.
  - intros; ring.
  - intros; ring.
Qed.

End NpFacts.

Import NpFacts.

(** ** The exhaustive solver meets the contract of the assignment problem *)

Module ScipyFacts.

Lemma insert_everywhere_spec (x : nat) (l p : list nat) :
  In p (insert_everywhere x l) <->
  exists l1 l2, l = l1 ++ l2 /\ p = l1 ++ x :: l2.
Proof.
  revert p; induction l as [|y t IH]; intros p; simpl.
  - split.
    + intros [<- | []]. now exists [], [].
    + intros (l1 & l2 & Hl & ->).
      destruct l1; [destruct l2; [now left | discriminate] | discriminate].
  - split.
    + intros [<- | Hin].
      * now exists [], (y :: t).
      * apply in_map_iff in Hin as (q & <- & Hq).
        apply IH in Hq as (l1 & l2 & -> & ->).
        now exists (y :: l1), l2.
    + intros (l1 & l2 & Hl & ->).
      destruct l1 as [|z l1]; simpl in *.
      * left; now rewrite Hl.
      * injection Hl as <- ->. right.
        apply in_map_iff. exists (l1 ++ x :: l2); split; auto.
        apply IH. now exists l1, l2.
Qed.

Lemma permutations_spec (l p : list nat) :
  In p (permutations l) <-> Permutation p l.
Proof.
  revert p; induction l as [|x t IH]; intros p; simpl.
  - split.
    + intros [<- | []]; constructor.
    + intros H; apply Permutation_sym, Permutation_nil in H; now left.
  - rewrite in_flat_map; split.
    + intros (q & Hq & Hp).
      apply IH in Hq. apply insert_everywhere_spec in Hp as (l1 & l2 & -> & ->).
      symmetry. apply Permutation_cons_app. now symmetry.
    + intros Hp.
      assert (Hx : In x p).
      { apply (Permutation_in x (Permutation_sym Hp)). now left. }
      apply in_split in Hx as (l1 & l2 & ->).
      exists (l1 ++ l2); split.
      * apply IH. apply Permutation_cons_inv with x.
        apply Permutation_trans with (l1 ++ x :: l2); auto.
        apply Permutation_middle.
      * apply insert_everywhere_spec. now exists l1, l2.
Qed.

Lemma cheapest_spec (diff : list (list R)) (cands : list (list nat))
  (best : list nat) :
  In (cheapest diff best cands) (best :: cands) /\
  forall c, In c (best :: cands) ->
    (cost diff (cheapest diff best cands) <= cost diff c)%R.
Proof.
  revert best; induction cands as [|c cs IH]; intros best; simpl.
  - split; [now left | intros c [<- | []]; lra].
  - destruct (Rlt_dec (cost diff c) (cost diff best)) as [Hlt|Hge];
      [destruct (IH c) as (Hin & Hmin) | destruct (IH best) as (Hin & Hmin)];
      (split; [simpl in Hin; tauto |]).
    + intros c' [<- | [<- | Hc']].
      * specialize (Hmin c (or_introl eq_refl)); lra.
      * apply Hmin; now left.
      * apply Hmin; now right.
    + intros c' [<- | [<- | Hc']].
      * apply Hmin; now left.
      * specialize (Hmin best (or_introl eq_refl)); lra.
      * apply Hmin; now right.
Qed.

Lemma exhaustive_assignment_spec (n : nat) (diff : list (list R)) :
  length diff = n ->
  exists cols,
    exhaustive_assignment diff = Ok (seq 0 n, cols) /\
    Permutation cols (seq 0 n) /\
    forall cols', Permutation cols' (seq 0 n) ->
      (cost diff cols <= cost diff cols')%R.
Proof.
  intros <-; unfold exhaustive_assignment.
  destruct (permutations (seq 0 (length diff))) as [|p ps] eqn:Hperms.
  - assert (H : In (seq 0 (length diff)) (permutations (seq 0 (length diff))))
      by (apply permutations_spec; reflexivity).
    rewrite Hperms in H; destruct H.
  - destruct (cheapest_spec diff ps p) as (Hin & Hmin).
    exists (cheapest diff p ps); repeat split; auto.
    + apply permutations_spec; now rewrite Hperms.
    + intros cols' Hc; apply Hmin.
      rewrite <- Hperms; now apply permutations_spec.
Qed.

End ScipyFacts.

Import ScipyFacts.

(** ** Sums of squared distances *)

Module PairingFacts.

Import OpenMMScore.

Lemma sum_cons (x : R) (xs : list R) : Np.sum (x :: xs) = (x + Np.sum xs)%R.
Proof.
  unfold Np.sum; simpl. rewrite Rplus_0_l.
  assert (H : forall l a b,
             fold_left Rplus l (a + b)%R = (a + fold_left Rplus l b)%R).
  { induction l as [|y l IH]; intros a b; simpl; [reflexivity|].
    rewrite Rplus_assoc. apply IH. }
  rewrite <- (Rplus_0_r x) at 1. apply H.
Qed.

Lemma sum_zero_terms (xs : list R) :
  Forall (fun x => (0 <= x)%R) xs -> Np.sum xs = 0%R ->
  Forall (fun x => x = 0%R) xs.
Proof.
  induction 1 as [|x xs Hx Hxs IH]; intros Hsum; constructor;
    rewrite sum_cons in Hsum; pose proof (sum_nonneg Hxs) as Hs.
  - lra.
  - apply IH; lra.
Qed.

Lemma sqdist_nonneg (a b : vec3) : (0 <= sqdist a b)%R.
Proof.
  unfold sqdist; cbv zeta.
  generalize (vx (vsub a b)) (vy (vsub a b)) (vz (vsub a b)).
  intros dx dy dz.
  pose proof (Rle_0_sqr dx) as H1.
  pose proof (Rle_0_sqr dy) as H2.
  pose proof (Rle_0_sqr dz) as H3.
  unfold Rsqr in *. lra.
Qed.

Lemma sqdist_same (a : vec3) : sqdist a a = 0%R.
Proof.
  destruct a as [[x y] z]; unfold sqdist, vsub, vx, vy, vz; simpl. ring.
Qed.

Lemma sqdist_zero (a b : vec3) : sqdist a b = 0%R -> a = b.
Proof.
  destruct a as [[x y] z], b as [[x' y'] z'].
  unfold sqdist, vsub, vx, vy, vz; simpl. intros H.
  pose proof (Rle_0_sqr (x - x')) as H1.
  pose proof (Rle_0_sqr (y - y')) as H2.
  pose proof (Rle_0_sqr (z - z')) as H3.
  unfold Rsqr in *.
  assert (Hx : ((x - x') * (x - x') = 0)%R) by lra.
  assert (Hy : ((y - y') * (y - y') = 0)%R) by lra.
  assert (Hz : ((z - z') * (z - z') = 0)%R) by lra.
  apply Rsqr_0_uniq in Hx, Hy, Hz.
  repeat f_equal; lra.
Qed.

Lemma combine_seq_nth (cols : list nat) :
  combine (seq 0 (length cols)) cols
  = map (fun a => (a, nth a cols 0)) (seq 0 (length cols)).
Proof.
  assert (H : forall l k,
             combine (seq k (length l)) l
             = map (fun a => (a, nth (a - k) l 0)) (seq k (length l))).
  { induction l as [|c l IH]; intros k; simpl; auto.
    rewrite Nat.sub_diag. f_equal. rewrite IH.
    apply map_ext_in. intros a Ha. apply in_seq in Ha.
    replace (a - k) with (S (a - S k)) by lia. reflexivity. }
  rewrite H. apply map_ext. intros a. now rewrite Nat.sub_0_r.
Qed.

(** The cost of a pairing, atom by atom. *)
Lemma cost_of_pairing (reference sub : list vec3) (cols : list nat)
  (n : nat) :
  length reference = n -> length sub = n -> length cols = n ->
  Forall (fun b => b < n) cols ->
  cost (pairwise reference sub) cols
  = Np.sum (map (fun a => sqdist (nth a reference (0, 0, 0)%R)
                           (nth (nth a cols 0) sub (0, 0, 0)%R))
              (seq 0 n)).
Proof.
  intros Hr Hs Hc Hcols. unfold cost.
  rewrite combine_seq_nth, map_map, Hc. f_equal.
  apply map_ext_in. intros a Ha; simpl. apply in_seq in Ha.
  unfold pairwise.
  rewrite (nth_indep _ [] (map (sqdist (0, 0, 0)%R) sub))
    by (rewrite length_map; lia).
  rewrite (map_nth (fun p => map (sqdist p) sub)).
  assert (Hb : nth a cols 0 < n).
  { rewrite Forall_forall in Hcols. apply Hcols, nth_In. lia. }
  rewrite (nth_indep _ 0%R (sqdist (nth a reference (0, 0, 0)%R) (0, 0, 0)%R))
    by (rewrite length_map; lia).
  now rewrite map_nth.
Qed.

Lemma permutation_in_range (cols : list nat) (n : nat) :
  Permutation cols (seq 0 n) ->
  length cols = n /\ Forall (fun b => b < n) cols.
Proof.
  intros Hperm; split.
  - rewrite (Permutation_length Hperm); apply length_seq.
  - apply Forall_forall; intros b Hb.
    apply (Permutation_in _ Hperm), in_seq in Hb; lia.
Qed.

Lemma sqdist_is_the_squared_distance (a b : vec3) :
  sqdist a b = Spec.squared_distance a b.
Proof.
  destruct a as [[x y] z], b as [[x' y'] z']. reflexivity.
Qed.

(** The matrix handed to [linear_sum_assignment] holds, in row [a] and
    column [b], the squared distance of reference atom [a] and atom [b] of
    the rotamer. *)
Lemma pairwise_entry (reference sub : list vec3) (a b : nat) :
  a < length reference -> b < length sub ->
  nth b (nth a (pairwise reference sub) []) 0%R
  = Spec.squared_distance (nth a reference (0, 0, 0)%R)
      (nth b sub (0, 0, 0)%R).
Proof.
  intros Ha Hb. unfold pairwise.
  rewrite (nth_indep _ [] (map (sqdist (0, 0, 0)%R) sub))
    by (rewrite length_map; lia).
  rewrite (map_nth (fun p => map (sqdist p) sub)).
  rewrite (nth_indep _ 0%R (sqdist (nth a reference (0, 0, 0)%R) (0, 0, 0)%R))
    by (rewrite length_map; lia).
  rewrite map_nth. apply sqdist_is_the_squared_distance.
Qed.

(** The cost of a pairing is the sum of the squared distances of the
    paired atoms. *)
Lemma cost_is_the_sum_of_squared_distances (reference sub : list vec3)
  (cols : list nat) (n : nat) :
  length reference = n -> length sub = n ->
  Permutation cols (seq 0 n) ->
  cost (pairwise reference sub) cols
  = Spec.sum_of_squared_distances reference sub cols.
Proof.
  intros Hr Hs Hperm.
  destruct (@permutation_in_range cols n Hperm) as (Hc & Hcols).
  rewrite (@cost_of_pairing _ _ _ n) by auto.
  unfold Spec.sum_of_squared_distances. rewrite sum_total, Hr.
  f_equal. apply map_ext. intros a. apply sqdist_is_the_squared_distance.
Qed.

End PairingFacts.

(** ** Notebook 13 *)

Module OpenMMScoreFacts.

Import OpenMMScore PairingFacts.

Section Notebook.

Context {lib : Libraries}.

(** *** What a call returns *)

Lemma energy_loop_spec (self : OpenMMEnergyFunc) (system : RotamerEnsemble)
  (pix rix : list nat) :
  efunc_protein_ix system = Some pix ->
  efunc_residue_ix system = Some (Some rix) ->
  length rix = length pix ->
  NoDup pix ->
  Forall (fun i => i < length (positions (protein self))) pix ->
  (forall pose, length pose = length (positions (protein self)) ->
     exists E, getPotentialEnergy (simulation self) pose = Ok E) ->
  forall rots pose Es0,
    Forall (fun rot => Forall (fun j => j < length rot) rix) rots ->
    length pose = length (positions (protein self)) ->
    (forall i, ~ In i pix ->
       nth_error pose i = nth_error (positions (protein self)) i) ->
    exists Es,
      energy_loop self system rots pose Es0 = Ok (Es0 ++ Es) /\
      Forall2 (energy_of self pix rix) rots Es.
Proof.
  intros Hpix Hrix Hlen Hnd Hin Hener.
  induction rots as [|rot rest IH]; intros pose Es0 Hfit Hpose Hout; simpl.
  - exists []; split; [now rewrite app_nil_r | constructor].
  - inversion Hfit as [|? ? Hrot Hrest]; subst.
    rewrite Hrix, Hpix; simpl.
    destruct (take_ok rot Hrot) as (v & -> & Hv & Hnth); simpl.
    rewrite setitem_ok; [simpl | now rewrite Hpose | congruence].
    assert (Hsub : substituted (positions (protein self)) pix rix rot
                     (put_rows pose pix v)).
    { repeat split.
      - now rewrite put_rows_length.
      - intros k i j Hk Hj.
        rewrite (@put_rows_at _ pix v pose k i); auto; try congruence.
        now rewrite Hpose.
      - intros i Hi. rewrite put_rows_outside by assumption. auto. }
    destruct (Hener (put_rows pose pix v)) as (E & HE);
      [now rewrite put_rows_length |].
    rewrite HE; simpl.
    destruct (IH (put_rows pose pix v) (Es0 ++ [E]) Hrest) as (Es & HEs & Hall).
    + now rewrite put_rows_length.
    + intros i Hi. rewrite put_rows_outside by assumption. auto.
    + exists (E :: Es); split.
      * rewrite HEs, <- app_assoc; reflexivity.
      * constructor; auto. exists (put_rows pose pix v); auto.
Qed.

(** Once the system is prepared and its index maps fit the protein and the
    conformations, a call returns one energy per conformation, each the
    energy of the protein pose with that conformation substituted at the
    selected atoms. *)
Lemma prepared_call_returns_energies
  (self : OpenMMEnergyFunc) (system system' : RotamerEnsemble)
  (pix rix : list nat) :
  ensure_prepared self system = (system', Ok tt) ->
  maps_fit self system' pix rix ->
  (forall pose, length pose = length (positions (protein self)) ->
     exists E, getPotentialEnergy (simulation self) pose = Ok E) ->
  exists Es,
    OpenMMEnergyFunc_call self system = (system', Ok Es) /\
    length Es = length (coords system') /\
    Forall2 (energy_of self pix rix) (coords system') Es.
Proof.
  intros Hprep (Hpix & Hrix & Hlen & Hnd & Hin & Hfit) Hener.
  unfold OpenMMEnergyFunc_call; rewrite Hprep; simpl.
  destruct (@energy_loop_spec self system' pix rix Hpix Hrix Hlen Hnd Hin Hener
              (coords system') (positions (protein self)) [])
    as (Es & HEs & Hall); auto.
  exists Es; simpl in HEs; rewrite HEs; repeat split; auto.
  symmetry; eapply Forall2_length; eauto.
Qed.

(** *** Lazy preparation *)

Lemma call_on_prepared (self : OpenMMEnergyFunc) (system : RotamerEnsemble) :
  hasattr (efunc_protein_ix system) = true ->
  OpenMMEnergyFunc_call self system =
    (system,
     energy_loop self system (coords system) (positions (protein self)) []).
Proof.
  intros H; unfold OpenMMEnergyFunc_call, ensure_prepared; now rewrite H.
Qed.

Lemma prepare_system_sets_protein_ix
  (self : OpenMMEnergyFunc) (system : RotamerEnsemble) :
  hasattr (efunc_protein_ix (fst (prepare_system self system)))
  = hasattr (efunc_protein_ix system)
  \/ hasattr (efunc_protein_ix (fst (prepare_system self system))) = true.
Proof.
  unfold prepare_system.
  destruct (select_atoms _ _) as [psel|e]; simpl; auto.
  destruct (match_atoms _ _); simpl; auto.
Qed.

(** Whatever the first call did, a second call leaves the system as the
    first one left it. *)
Lemma call_twice_same_system
  (self : OpenMMEnergyFunc) (system : RotamerEnsemble) :
  fst (OpenMMEnergyFunc_call self
         (fst (OpenMMEnergyFunc_call self system)))
  = fst (OpenMMEnergyFunc_call self system).
Proof.
  unfold OpenMMEnergyFunc_call at 2 3, ensure_prepared.
  destruct (hasattr (efunc_protein_ix system)) eqn:Hattr; simpl.
  - now rewrite call_on_prepared.
  - destruct (prepare_system self system) as [s1 r1] eqn:Hprep; simpl.
    unfold prepare_system in Hprep.
    destruct (select_atoms (protein self) (selstr system)) as [psel|e] eqn:Hsel.
    + assert (Hs1 : hasattr (efunc_protein_ix s1) = true).
      { destruct (match_atoms _ _); injection Hprep as <- _; reflexivity. }
      now rewrite call_on_prepared.
    + injection Hprep as <- _.
      unfold OpenMMEnergyFunc_call, ensure_prepared, prepare_system.
      now rewrite Hattr, Hsel.
Qed.

(** C7. The first call on a system without index maps stores both through
    [prepare_system]; a call on a system that has them goes straight to the
    energy loop with the stored maps, so the next call changes neither. *)
Theorem preparation_is_lazy_and_idempotent
  (self : OpenMMEnergyFunc) (system : RotamerEnsemble)
  (psel : AtomGroup) (dmap : option (list nat)) :
  efunc_protein_ix system = None ->
  select_atoms (protein self) (selstr system) = Ok psel ->
  match_atoms psel (set_efunc_protein_ix system (ix psel)) = Ok dmap ->
  let system1 := fst (OpenMMEnergyFunc_call self system) in
  prepare_system self system = (system1, Ok tt) /\
  efunc_protein_ix system1 = Some (ix psel) /\
  efunc_residue_ix system1 = Some dmap /\
  (forall later : RotamerEnsemble,
     efunc_protein_ix later = efunc_protein_ix system1 ->
     OpenMMEnergyFunc_call self later =
       (later,
        energy_loop self later (coords later) (positions (protein self)) [])) /\
  fst (OpenMMEnergyFunc_call self system1) = system1.
Proof.
  intros Hnone Hsel Hmatch system1.
  assert (Hprep : prepare_system self system
                  = (set_efunc_residue_ix
                       (set_efunc_protein_ix system (ix psel)) dmap, Ok tt)).
  { unfold prepare_system; now rewrite Hsel, Hmatch. }
  assert (Hs1 : system1 = set_efunc_residue_ix
                            (set_efunc_protein_ix system (ix psel)) dmap).
  { unfold system1, OpenMMEnergyFunc_call, ensure_prepared.
    now rewrite Hnone, Hprep. }
  rewrite Hs1; split; [exact Hprep|]; split; [reflexivity|];
    split; [reflexivity|]; split.
  - intros later Hlater; apply call_on_prepared.
    now rewrite Hlater.
  - now rewrite call_on_prepared.
Qed.

(** *** The pairing [match_atoms] keeps *)

Lemma for_each_map {A B} (f : A -> result B) (g : A -> B) (xs : list A) :
  (forall x, In x xs -> f x = Ok (g x)) -> for_each f xs = Ok (map g xs).
Proof.
  induction xs as [|x xs IH]; intros H; simpl; auto.
  rewrite H by now left. rewrite IH; auto.
  intros y Hy; apply H; now right.
Qed.

Lemma pairwise_square (reference sub : list vec3) (n : nat) :
  length reference = n -> length sub = n ->
  length (pairwise reference sub) = n /\
  Forall (fun row => length row = n) (pairwise reference sub).
Proof.
  intros Hr Hs; unfold pairwise; split.
  - now rewrite length_map.
  - apply Forall_forall; intros row Hrow.
    apply in_map_iff in Hrow as (a & <- & _). now rewrite length_map.
Qed.

Lemma getitem2_in_range (diff : list (list R)) (n a b : nat) :
  length diff = n -> Forall (fun row => length row = n) diff ->
  a < n -> b < n ->
  getitem2 diff (a, b) = Ok (nth b (nth a diff []) 0%R).
Proof.
  intros Hlen Hrows Ha Hb; unfold getitem2; simpl.
  destruct (nth_error diff a) as [row|] eqn:Hrow.
  - rewrite (nth_error_nth _ _ _ Hrow).
    assert (Hr : length row = n).
    { rewrite Forall_forall in Hrows; apply Hrows.
      eapply nth_error_In; eauto. }
    destruct (nth_error row b) as [x|] eqn:Hx.
    + now rewrite (nth_error_nth _ _ _ Hx).
    + apply nth_error_None in Hx; lia.
  - apply nth_error_None in Hrow; lia.
Qed.

(** Under the contract, the score of a rotamer is the least cost of a
    pairing of its atoms with the reference atoms. *)
Lemma pairing_optimal (reference sub : list vec3) (n : nat) :
  lsa_contract -> length reference = n -> length sub = n ->
  exists cols,
    linear_sum_assignment (pairwise reference sub) = Ok (seq 0 n, cols) /\
    pairing reference sub = Ok (cols, cost (pairwise reference sub) cols) /\
    Permutation cols (seq 0 n) /\
    forall cols', Permutation cols' (seq 0 n) ->
      (cost (pairwise reference sub) cols
       <= cost (pairwise reference sub) cols')%R.
Proof.
  intros Hlsa Hr Hs.
  destruct (pairwise_square reference sub Hr Hs) as (Hlen & Hrows).
  destruct (Hlsa n _ Hlen Hrows) as (cols & Hrun & Hperm & Hmin).
  exists cols; repeat split; auto.
  unfold pairing; rewrite Hrun; simpl.
  assert (Hn : length cols = n).
  { rewrite (Permutation_length Hperm); apply length_seq. }
  rewrite (@for_each_map _ _ _
             (fun arg => nth (snd arg) (nth (fst arg) (pairwise reference sub) [])
                           0%R)).
  - simpl; unfold cost; now rewrite Hn.
  - intros [a b] Hin.
    apply (@getitem2_in_range _ n); auto.
    + apply in_combine_l in Hin. apply in_seq in Hin; simpl; lia.
    + apply in_combine_r in Hin.
      apply (Permutation_in _ Hperm), in_seq in Hin; simpl; lia.
Qed.

Lemma lt_bound_false (x : R) (bound : option R) :
  lt_bound x bound = false -> bound_le bound x.
Proof.
  destruct bound as [b|]; simpl; [|discriminate].
  destruct (Rlt_dec x b); [discriminate | intros _; lra].
Qed.

Lemma lt_bound_trans (x y : R) (bound : option R) :
  lt_bound x (Some y) = true -> lt_bound y bound = true ->
  lt_bound x bound = true.
Proof.
  destruct bound as [b|]; simpl; auto.
  destruct (Rlt_dec x y), (Rlt_dec y b), (Rlt_dec x b);
    try discriminate; auto; lra.
Qed.

Lemma lt_bound_le (x y : R) (bound : option R) :
  lt_bound x bound = true -> bound_le bound y -> (x <= y)%R.
Proof.
  destruct bound as [b|]; simpl; [|tauto].
  destruct (Rlt_dec x b); [intros _ ?; lra | discriminate].
Qed.

(** The loop either keeps what it started with, every rotamer scoring no
    less than the bound, or ends with the pairing of a rotamer that beats
    the bound and that no rotamer beats. *)
Lemma match_atoms_loop_spec (reference : list vec3) (n : nat) :
  lsa_contract -> length reference = n ->
  forall subs dmin_score dmap,
    Forall (fun sub => length sub = n) subs ->
    exists res,
      match_atoms_loop reference subs dmin_score dmap = Ok res /\
      ((res = dmap /\
        forall sub cols score, In sub subs ->
          pairing reference sub = Ok (cols, score) ->
          bound_le dmin_score score)
       \/
       (exists sub cols score,
          In sub subs /\ pairing reference sub = Ok (cols, score) /\
          res = Some cols /\ lt_bound score dmin_score = true /\
          forall sub' cols' score', In sub' subs ->
            pairing reference sub' = Ok (cols', score') ->
            (score <= score')%R)).
Proof.
  intros Hlsa Hr.
  induction subs as [|sub rest IH]; intros dmin_score dmap Hn; simpl.
  - exists dmap; split; auto. left; split; auto. intros ? ? ? [].
  - inversion Hn as [|? ? Hsub Hrest]; subst.
    destruct (pairing_optimal reference sub Hlsa eq_refl Hsub)
      as (cols & _ & Hpair & _).
    rewrite Hpair; simpl.
    set (score := cost (pairwise reference sub) cols) in *.
    destruct (lt_bound score dmin_score) eqn:Hlt.
    + destruct (IH (Some score) (Some cols) Hrest) as (res & Hres & Hcase).
      exists res; split; auto. right.
      destruct Hcase as [(-> & Hall) | (sub2 & c2 & s2 & Hin & Hp2 & -> & Hlt2 & Hall)].
      * exists sub, cols, score; repeat split; auto with datatypes.
        intros sub' cols' score' [<- | Hin'] Hp'.
        -- rewrite Hpair in Hp'. injection Hp' as _ <-. lra.
        -- apply (Hall sub' cols' score' Hin' Hp').
      * exists sub2, c2, s2; repeat split; auto with datatypes.
        -- eapply lt_bound_trans; eauto.
        -- intros sub' cols' score' [<- | Hin'] Hp'.
           ++ rewrite Hpair in Hp'. injection Hp' as _ <-.
              simpl in Hlt2. destruct (Rlt_dec s2 score); [lra|discriminate].
           ++ eapply Hall; eauto.
    + destruct (IH dmin_score dmap Hrest) as (res & Hres & Hcase).
      exists res; split; auto.
      destruct Hcase as [(-> & Hall) | (sub2 & c2 & s2 & Hin & Hp2 & -> & Hlt2 & Hall)].
      * left; split; auto.
        intros sub' cols' score' [<- | Hin'] Hp'.
        -- rewrite Hpair in Hp'. injection Hp' as _ <-.
           now apply lt_bound_false.
        -- eapply Hall; eauto.
      * right. exists sub2, c2, s2; repeat split; auto with datatypes.
        intros sub' cols' score' [<- | Hin'] Hp'.
        -- rewrite Hpair in Hp'. injection Hp' as _ <-.
           eapply lt_bound_le; eauto. now apply lt_bound_false.
        -- eapply Hall; eauto.
Qed.

(** C6. With at least one rotamer, each with as many atoms as the
    reference, [match_atoms] returns the column assignment that
    [linear_sum_assignment] produced for one of the rotamers.  The matrix it
    was produced from holds the squared distances of the reference atoms
    and the rotamer's atoms, and the sum of the squared distances of the
    atoms it pairs is least, over all pairings of that rotamer and over all
    pairings of every other rotamer.  It is a permutation of the atom
    indices. *)
Theorem match_atoms_keeps_best_pairing
  (reference : AtomGroup) (subject : RotamerEnsemble) (n : nat) :
  lsa_contract ->
  coords subject <> [] ->
  length (positions reference) = n ->
  Forall (fun sub => length sub = n) (coords subject) ->
  exists i sub dmap,
    match_atoms reference subject = Ok (Some dmap) /\
    nth_error (coords subject) i = Some sub /\
    linear_sum_assignment (pairwise (positions reference) sub)
      = Ok (seq 0 n, dmap) /\
    (forall a b, a < n -> b < n ->
       nth b (nth a (pairwise (positions reference) sub) []) 0%R
       = Spec.squared_distance (nth a (positions reference) (0, 0, 0)%R)
           (nth b sub (0, 0, 0)%R)) /\
    (forall cols, Permutation cols (seq 0 n) ->
       (Spec.sum_of_squared_distances (positions reference) sub dmap
        <= Spec.sum_of_squared_distances (positions reference) sub cols)%R) /\
    (forall sub' cols', In sub' (coords subject) ->
       Permutation cols' (seq 0 n) ->
       (Spec.sum_of_squared_distances (positions reference) sub dmap
        <= Spec.sum_of_squared_distances (positions reference) sub' cols')%R) /\
    Permutation dmap (seq 0 n).
Proof.
  intros Hlsa Hne Hr Hn.
  destruct (@match_atoms_loop_spec (positions reference) n Hlsa Hr
              (coords subject) None None Hn) as (res & Hres & Hcase).
  destruct Hcase as [(_ & Hall) | (sub & cols & score & Hin & Hp & -> & _ & Hall)].
  - destruct (coords subject) as [|sub rest]; [congruence|].
    pose proof (Forall_inv Hn) as Hsub; simpl in Hsub.
    destruct (pairing_optimal (positions reference) sub Hlsa Hr Hsub)
      as (cols & _ & Hpair & _).
    destruct (Hall sub cols _ (or_introl eq_refl) Hpair).
  - assert (Hsub : length sub = n).
    { rewrite Forall_forall in Hn; auto. }
    destruct (pairing_optimal (positions reference) sub Hlsa Hr Hsub)
      as (cols0 & Hrun & Hpair & Hperm & Hmin).
    rewrite Hpair in Hp; injection Hp as <- <-.
    destruct (In_nth_error _ _ Hin) as (i & Hi).
    exists i, sub, cols0.
    split; [exact Hres|]. split; [exact Hi|]. split; [exact Hrun|].
    split; [|split; [|split; [|exact Hperm]]].
    + intros a b Ha Hb. apply pairwise_entry; lia.
    + intros cols' Hperm'.
      rewrite <- !(@cost_is_the_sum_of_squared_distances _ _ _ n) by auto.
      now apply Hmin.
    + intros sub' cols' Hin' Hperm'.
      assert (Hsub' : length sub' = n).
      { rewrite Forall_forall in Hn; auto. }
      rewrite <- !(@cost_is_the_sum_of_squared_distances _ _ _ n) by auto.
      destruct (pairing_optimal (positions reference) sub' Hlsa Hr Hsub')
        as (c' & _ & Hpair' & _ & Hmin').
      apply Rle_trans with (cost (pairwise (positions reference) sub') c').
      * eapply Hall; eauto.
      * now apply Hmin'.
Qed.

(** The first call on a system runs [prepare_system], which stores the
    indices of the selection and the pairing [match_atoms] returns for it,
    a permutation of the atom indices of the rotamers. *)
Lemma first_call_prepares
  (self : OpenMMEnergyFunc) (system : RotamerEnsemble) (psel : AtomGroup)
  (n : nat) :
  lsa_contract ->
  efunc_protein_ix system = None ->
  select_atoms (protein self) (selstr system) = Ok psel ->
  length (positions psel) = n ->
  coords system <> [] ->
  Forall (fun sub => length sub = n) (coords system) ->
  exists rix,
    match_atoms psel (set_efunc_protein_ix system (ix psel)) = Ok (Some rix) /\
    Permutation rix (seq 0 n) /\
    ensure_prepared self system
    = (set_efunc_residue_ix (set_efunc_protein_ix system (ix psel)) (Some rix),
       Ok tt).
Proof.
  intros Hlsa Hnone Hsel Hpos Hne Hn.
  destruct (@match_atoms_loop_spec (positions psel) n Hlsa Hpos
              (coords system) None None Hn) as (res & Hres & Hcase).
  assert (Hrix : exists rix, res = Some rix /\ Permutation rix (seq 0 n)).
  { destruct Hcase as [(_ & Hall) | (sub & cols & score & Hsub & Hp & -> & _)].
    - destruct (coords system) as [|sub rest]; [congruence|].
      pose proof (Forall_inv Hn) as Hsub; simpl in Hsub.
      destruct (pairing_optimal (positions psel) sub Hlsa Hpos Hsub)
        as (cols & _ & Hpair & _).
      destruct (Hall sub cols _ (or_introl eq_refl) Hpair).
    - assert (Hlen : length sub = n) by (rewrite Forall_forall in Hn; auto).
      destruct (pairing_optimal (positions psel) sub Hlsa Hpos Hlen)
        as (cols0 & _ & Hpair & Hperm & _).
      rewrite Hpair in Hp; injection Hp as <- _.
      exists cols0; auto. }
  destruct Hrix as (rix & -> & Hperm).
  assert (Hmatch : match_atoms psel (set_efunc_protein_ix system (ix psel))
                   = Ok (Some rix)) by exact Hres.
  exists rix. split; [exact Hmatch|]. split; [exact Hperm|].
  unfold ensure_prepared, prepare_system.
  rewrite Hnone, Hsel; simpl. now rewrite Hmatch.
Qed.

(** C1, amended. Take a system that was not prepared, whose selection
    string selects [n] different atoms of the protein and whose conformations
    have [n] atoms each, at least one conformation.  With a
    [linear_sum_assignment] that keeps scipy's contract and an OpenMM that
    evaluates every pose, the call stores the selection's indices and the
    pairing of [match_atoms], and returns one energy per conformation, the
    i-th being OpenMM's potential energy of the protein pose with the i-th
    conformation's atoms, as paired, substituted at the selected atoms; a
    further call on the system it leaves changes nothing on it and returns
    such an array again. *)
Theorem call_returns_one_energy_per_conformation
  (self : OpenMMEnergyFunc) (system : RotamerEnsemble) (psel : AtomGroup)
  (n : nat) :
  lsa_contract ->
  (forall pose, length pose = length (positions (protein self)) ->
     exists E, getPotentialEnergy (simulation self) pose = Ok E) ->
  efunc_protein_ix system = None ->
  select_atoms (protein self) (selstr system) = Ok psel ->
  NoDup (ix psel) ->
  Forall (fun i => i < length (positions (protein self))) (ix psel) ->
  length (ix psel) = n -> length (positions psel) = n ->
  coords system <> [] ->
  Forall (fun rot => length rot = n) (coords system) ->
  exists rix Es,
    match_atoms psel (set_efunc_protein_ix system (ix psel)) = Ok (Some rix) /\
    Permutation rix (seq 0 n) /\
    let system1 :=
      set_efunc_residue_ix (set_efunc_protein_ix system (ix psel)) (Some rix) in
    OpenMMEnergyFunc_call self system = (system1, Ok Es) /\
    length Es = length (coords system) /\
    Forall2 (energy_of self (ix psel) rix) (coords system) Es /\
    exists Es',
      OpenMMEnergyFunc_call self system1 = (system1, Ok Es') /\
      length Es' = length (coords system) /\
      Forall2 (energy_of self (ix psel) rix) (coords system) Es'.
Proof.
  intros Hlsa Hener Hnone Hsel Hnd Hin Hix Hpos Hne Hn.
  destruct (@first_call_prepares self system psel n Hlsa Hnone Hsel Hpos Hne Hn)
    as (rix & Hmatch & Hperm & Hprep).
  exists rix.
  set (system1 := set_efunc_residue_ix
                    (set_efunc_protein_ix system (ix psel)) (Some rix)) in *.
  assert (Hfit : maps_fit self system1 (ix psel) rix).
  { repeat split; auto; simpl.
    - rewrite (Permutation_length Hperm), length_seq; auto.
    - apply Forall_forall; intros rot Hrot.
      apply Forall_forall; intros j Hj.
      rewrite Forall_forall in Hn. rewrite (Hn rot Hrot).
      apply (Permutation_in _ Hperm), in_seq in Hj; lia. }
  destruct (@prepared_call_returns_energies self system system1 (ix psel) rix
              Hprep Hfit Hener)
    as (Es & Hcall & Hlen & Hall).
  exists Es. split; [exact Hmatch|]. split; [exact Hperm|].
  split; [exact Hcall|]. split; [exact Hlen|]. split; [exact Hall|].
  assert (Hagain : ensure_prepared self system1 = (system1, Ok tt))
    by reflexivity.
  exact (@prepared_call_returns_energies self system1 system1 (ix psel) rix
           Hagain Hfit Hener).
Qed.

End Notebook.

Lemma exhaustive_assignment_contract :
  @lsa_contract demo_lib.
Proof.
  intros n diff Hlen _. now apply exhaustive_assignment_spec.
Qed.

Lemma call_returns_one_energy_per_conformation_witness :
  exists rix Es,
    @match_atoms demo_lib {| ix := [1]; positions := [(1, 0, 0)%R] |}
      (set_efunc_protein_ix demo_system [1]) = Ok (Some rix) /\
    Permutation rix (seq 0 1) /\
    let system1 :=
      set_efunc_residue_ix (set_efunc_protein_ix demo_system [1]) (Some rix) in
    OpenMMEnergyFunc_call demo_efunc demo_system = (system1, Ok Es) /\
    length Es = length (coords demo_system) /\
    Forall2 (energy_of demo_efunc [1] rix) (coords demo_system) Es /\
    exists Es',
      OpenMMEnergyFunc_call demo_efunc system1 = (system1, Ok Es') /\
      length Es' = length (coords demo_system) /\
      Forall2 (energy_of demo_efunc [1] rix) (coords demo_system) Es'.
Proof.
  apply (@call_returns_one_energy_per_conformation demo_lib demo_efunc
           demo_system {| ix := [1]; positions := [(1, 0, 0)%R] |} 1).
  - exact exhaustive_assignment_contract.
  - intros pose _; eexists; reflexivity.
  - reflexivity.
  - reflexivity.
  - repeat constructor; simpl; tauto.
  - repeat constructor.
  - reflexivity.
  - reflexivity.
  - discriminate.
  - repeat constructor.
Defined.

(** C1, as stated, fails: a system that has [efunc_protein_ix] but not
    [efunc_residue_ix], as a first call that raised in [match_atoms] leaves
    it, has two conformations, and the call on it raises [AttributeError]
    although every library returns. *)
Lemma half_prepared_system_gets_no_energies :
  ~ Repository.every_system_gets_one_energy_per_conformation.
Proof.
  intros H.
  destruct (H demo_lib demo_efunc (set_efunc_protein_ix demo_system [1])
              exhaustive_assignment_contract)
    as (Es & HEs & _).
  - intros group selection; eexists; reflexivity.
  - intros pose; eexists; reflexivity.
  - discriminate HEs.
Qed.

Lemma preparation_is_lazy_and_idempotent_witness :
  let system1 := fst (OpenMMEnergyFunc_call demo_efunc demo_system) in
  prepare_system demo_efunc demo_system = (system1, Ok tt) /\
  efunc_protein_ix system1 = Some [1] /\
  efunc_residue_ix system1 = Some (Some [0]) /\
  (forall later : RotamerEnsemble,
     efunc_protein_ix later = efunc_protein_ix system1 ->
     OpenMMEnergyFunc_call demo_efunc later =
       (later,
        energy_loop demo_efunc later (coords later)
          (positions (protein demo_efunc)) [])) /\
  fst (OpenMMEnergyFunc_call demo_efunc system1) = system1.
Proof.
  apply (@preparation_is_lazy_and_idempotent demo_lib demo_efunc demo_system
           {| ix := [1]; positions := [(1, 0, 0)%R] |} (Some [0])).
  - reflexivity.
  - reflexivity.
  - unfold match_atoms; simpl.
    destruct (Rlt_dec _ _); reflexivity.
Defined.

Lemma match_atoms_keeps_best_pairing_witness :
  exists i sub dmap,
    @match_atoms demo_lib demo_protein demo_residue = Ok (Some dmap) /\
    nth_error (coords demo_residue) i = Some sub /\
    @linear_sum_assignment demo_lib (pairwise (positions demo_protein) sub)
      = Ok (seq 0 3, dmap) /\
    (forall a b, a < 3 -> b < 3 ->
       nth b (nth a (pairwise (positions demo_protein) sub) []) 0%R
       = Spec.squared_distance (nth a (positions demo_protein) (0, 0, 0)%R)
           (nth b sub (0, 0, 0)%R)) /\
    (forall cols, Permutation cols (seq 0 3) ->
       (Spec.sum_of_squared_distances (positions demo_protein) sub dmap
        <= Spec.sum_of_squared_distances (positions demo_protein) sub cols)%R) /\
    (forall sub' cols',
       In sub' (coords demo_residue) ->
       Permutation cols' (seq 0 3) ->
       (Spec.sum_of_squared_distances (positions demo_protein) sub dmap
        <= Spec.sum_of_squared_distances (positions demo_protein) sub' cols')%R) /\
    Permutation dmap (seq 0 3).
Proof.
  apply (@match_atoms_keeps_best_pairing demo_lib demo_protein demo_residue 3).
  - exact exhaustive_assignment_contract.
  - discriminate.
  - reflexivity.
  - repeat constructor.
Defined.

End OpenMMScoreFacts.

(** ** The site screen *)

Module SiteScreenFacts.

Import SiteScreen.

Example combinations2_of_three :
  combinations2 [1; 2; 3]%Z = [(1, 2); (1, 3); (2, 3)]%Z.
Proof. reflexivity. Qed.

Example dict_set_replaces_in_place :
  dict_set 1%Z true (dict_set 2%Z false (dict_set 1%Z false []))
  = [(1%Z, true); (2%Z, false)].
Proof. reflexivity. Qed.

Section Notebook.

Context {inputs : Inputs}.

Lemma select_idxs_spec (i : nat) :
  In i select_idxs ->
  i < length resnums /\ (nth i vols 0%R > 100)%R.
Proof.
  unfold select_idxs; intros H.
  apply filter_In in H as (Hi & Htest).
  apply in_seq in Hi. unfold vols in Hi at 1. rewrite length_map in Hi.
  split; [lia|].
  destruct (Rgt_dec (nth i vols 0%R) 100); [assumption | discriminate].
Qed.

Lemma vols_nth (i : nat) :
  i < length resnums ->
  nth i vols 0%R = get_site_volume (nth i resnums 0%Z).
Proof.
  intros Hi; unfold vols.
  rewrite (nth_indep _ 0%R (get_site_volume 0%Z))
    by now rewrite length_map.
  apply map_nth.
Qed.

Lemma combine_map_same {A B C} (f : A -> B) (g : A -> C) (l : list A) :
  combine (map f l) (map g l) = map (fun a => (f a, g a)) l.
Proof.
  induction l as [|a l IH]; simpl; congruence.
Qed.

Lemma dict_set_binding {V} (P : Z * V -> Prop) (k : Z) (v : V)
  (d : list (Z * V)) :
  P (k, v) -> Forall P d -> Forall P (dict_set k v d).
Proof.
  intros Hkv; induction 1 as [|[k' v'] t Hh Ht IH]; simpl.
  - repeat constructor; assumption.
  - destruct (Z.eqb k k'); constructor; auto.
Qed.

Lemma SLs_bindings : Forall screened_binding SLs.
Proof.
  unfold SLs, possible_residues. rewrite combine_map_same.
  assert (Hgen : forall idxs d,
             (forall i, In i idxs -> In i select_idxs) ->
             Forall screened_binding d ->
             Forall screened_binding
               (fold_left
                  (fun d '(res, vol) => dict_set res (SpinLabel res, vol) d)
                  (map (fun i => (nth i resnums 0%Z, nth i vols 0%R)) idxs)
                  d)).
  { induction idxs as [|i idxs IH]; intros d Hsub Hd; simpl; auto.
    apply IH; [intros; apply Hsub; now right|].
    destruct (select_idxs_spec i (Hsub i (or_introl eq_refl))) as (Hi & Hvol).
    apply dict_set_binding; auto.
    unfold screened_binding; simpl.
    rewrite vols_nth in * by assumption; auto. }
  apply Hgen; auto.
Qed.

Lemma dict_get_key {V} (d : list (Z * V)) (k : Z) :
  In k (map fst d) -> exists v, dict_get d k = Ok v /\ In (k, v) d.
Proof.
  induction d as [|[k' v'] t IH]; simpl; [tauto|].
  intros Hin. destruct (Z.eqb_spec k k') as [->|Hne].
  - exists v'; auto.
  - destruct Hin as [Heq|Hin]; [congruence|].
    destruct (IH Hin) as (v & Hget & Hv). exists v; auto.
Qed.

Lemma SLs_lookup (res : Z) :
  In res (map fst SLs) ->
  dict_get SLs res = Ok (SpinLabel res, get_site_volume res) /\
  (get_site_volume res > 100)%R.
Proof.
  intros Hin. destruct (dict_get_key SLs res Hin) as ((SL & v) & Hget & Hb).
  pose proof SLs_bindings as Hall. rewrite Forall_forall in Hall.
  destruct (Hall _ Hb) as (Hval & Hvol); simpl in *.
  rewrite Hget, Hval; auto.
Qed.

Lemma combinations2_members {A} (xs : list A) (a b : A) :
  In (a, b) (combinations2 xs) -> In a xs /\ In b xs.
Proof.
  induction xs as [|x t IH]; simpl; [tauto|].
  intros H. apply in_app_or in H as [H|H].
  - apply in_map_iff in H as (y & Heq & Hy). injection Heq as <- <-. auto.
  - destruct (IH H); auto.
Qed.

Lemma screen_spec (perms : list (Z * Z)) :
  (forall perm, In perm perms ->
     In (fst perm) (map fst SLs) /\ In (snd perm) (map fst SLs)) ->
  forall pairs scores,
    Forall accepted pairs -> scores = map pair_score pairs ->
    exists pairs' scores',
      screen perms pairs scores = Ok (pairs', scores') /\
      Forall accepted pairs' /\ scores' = map pair_score pairs'.
Proof.
  induction perms as [|[res1 res2] rest IH]; intros Hkeys pairs scores Hacc Hsc;
    simpl.
  - exists pairs, scores; auto.
  - destruct (Hkeys (res1, res2) (or_introl eq_refl)) as (H1 & H2); simpl in *.
    destruct (SLs_lookup res1 H1) as (-> & Hv1).
    destruct (SLs_lookup res2 H2) as (-> & Hv2). simpl.
    assert (Hrest : forall perm, In perm rest ->
              In (fst perm) (map fst SLs) /\ In (snd perm) (map fst SLs))
      by (intros; apply Hkeys; now right).
    destruct (Rlt_dec (mean_dist (SpinLabel res1) (SpinLabel res2)) 25)
      as [Hlt|Hge].
    + apply IH; auto.
    + apply IH; auto.
      * apply Forall_app; split; auto.
        constructor; [|constructor].
        unfold accepted; simpl; repeat split; auto; lra.
      * subst scores. rewrite map_app. reflexivity.
Qed.

(** The distance the loop computes is the Euclidean distance of the two
    spin centroids, and the score it appends is the score the claim
    names. *)
Lemma mean_dist_is_euclidean (SL1 SL2 : RotamerEnsemble) :
  mean_dist SL1 SL2
  = Spec.euclidean_distance (spin_centroid SL1) (spin_centroid SL2).
Proof.
  unfold mean_dist, norm, Spec.euclidean_distance, Spec.squared_distance.
  destruct (spin_centroid SL1) as [[x y] z].
  destruct (spin_centroid SL2) as [[x' y'] z'].
  reflexivity.
Qed.

Lemma pair_score_is_the_claimed_score (perm : Z * Z) :
  pair_score perm = Spec.score_of_pair perm.
Proof.
  unfold pair_score, Spec.score_of_pair, score, Spec.site_pair_score.
  now rewrite mean_dist_is_euclidean.
Qed.

(** The divisor of the score is the cube root of the smaller volume. *)
Lemma cube_root_of_a_volume (v : R) :
  (0 < v)%R ->
  (0 < Rpower v (1 / 3))%R /\
  (Rpower v (1 / 3) * Rpower v (1 / 3) * Rpower v (1 / 3) = v)%R.
Proof.
  intros Hv; split; [apply exp_pos|].
  unfold Rpower. rewrite <- !exp_plus.
  replace (1 / 3 * ln v + 1 / 3 * ln v + 1 / 3 * ln v)%R with (ln v)
    by field.
  now apply exp_ln.
Qed.

(** C5. The screening loop returns.  Every pair it appended joins two
    residues whose site volumes both exceed 100 and whose spin centroids
    are at a Euclidean distance of at least 25.  The score appended with a
    pair is mean_dist / (site2 - site1) / min(vol1, vol2)^(1/3), for the
    distance of the centroids, the sites of the two labels and the volumes
    of the two residues.  The pair reported, when there is a pair at all,
    is an appended pair whose score is least; with no pair, [np.argmin]
    raises [ValueError].  The scores are real numbers here: in [float64],
    scores that differ by rounding only may tie, and [np.argmin] then
    reports the first of them. *)
Theorem screened_pairs_and_reported_pair :
  exists pairs scores,
    screened = Ok (pairs, scores) /\
    (forall res1 res2, In (res1, res2) pairs ->
       (get_site_volume res1 > 100)%R /\
       (get_site_volume res2 > 100)%R /\
       (Spec.euclidean_distance (spin_centroid (SpinLabel res1))
          (spin_centroid (SpinLabel res2)) >= 25)%R) /\
    scores = map Spec.score_of_pair pairs /\
    match reported with
    | Ok sites =>
        In sites pairs /\
        forall perm, In perm pairs ->
          (Spec.score_of_pair sites <= Spec.score_of_pair perm)%R
    | Raise e => pairs = [] /\ e = ValueError
    end.
Proof.
  destruct (@screen_spec (combinations2 (map fst SLs))) with (pairs := @nil (Z * Z))
    (scores := @nil R) as (pairs & scores & Hrun & Hacc & Hsc); auto.
  { intros [a b] Hin; simpl. now apply combinations2_members. }
  assert (Hscores : scores = map Spec.score_of_pair pairs).
  { rewrite Hsc. apply map_ext. exact pair_score_is_the_claimed_score. }
  exists pairs, scores.
  split; [exact Hrun|]. split; [|split; [exact Hscores|]].
  { intros res1 res2 Hin. rewrite Forall_forall in Hacc.
    destruct (Hacc _ Hin) as (H1 & H2 & H3); simpl in *.
    rewrite mean_dist_is_euclidean in H3. auto. }
  unfold reported, screened in *. rewrite Hrun; simpl.
  pose proof (argmin_spec scores) as Hmin.
  destruct (argmin scores) as [idx|e]; simpl.
  - destruct Hmin as (v & Hv & Hleast).
    rewrite Hscores in Hv, Hleast. rewrite nth_error_map in Hv.
    unfold getitem.
    destruct (nth_error pairs idx) as [sites|] eqn:Hsites; [|discriminate].
    injection Hv as <-. split.
    + eapply nth_error_In; eauto.
    + intros perm Hperm.
      destruct (In_nth_error _ _ Hperm) as (j & Hj).
      apply (Hleast j). now rewrite nth_error_map, Hj.
  - destruct Hmin as (Hnil & ->). split; auto.
    rewrite Hsc in Hnil. now destruct pairs.
Qed.

End Notebook.

End SiteScreenFacts.

(** ** The membrane docking *)

Module MembraneDockingFacts.

Import MembraneDocking.

Section Notebook.

Context {inputs : Inputs}.

Lemma combine_map_l {A B C} (f : A -> B) (l : list A) (l' : list C) :
  combine (map f l) l' = map (fun ac => (f (fst ac), snd ac)) (combine l l').
Proof.
  revert l'; induction l as [|a l IH]; intros [|c l']; simpl; auto.
  now rewrite IH.
Qed.

Lemma combine_same {A} (l : list A) :
  combine l l = map (fun a => (a, a)) l.
Proof.
  induction l as [|a l IH]; simpl; congruence.
Qed.



End Notebook.

End MembraneDockingFacts.

(** ** The cells *)

Module KernelFacts.

Import Kernel.

Example site_screen_runs : completes (run_all no_error site_screen) = true.
Proof. reflexivity. Qed.

Example membrane_docking_runs :
  completes (run_all no_error membrane_docking) = true.
Proof. reflexivity. Qed.

Example openmm_score_runs : completes (run_all no_error openmm_score) = true.
Proof. reflexivity. Qed.

Lemma find_unbound_none (ns : namespace) (names : list string) :
  forallb (bound ns) names = true ->
  find (fun name => negb (bound ns name)) names = None.
Proof.
  induction names as [|name names IH]; simpl; auto.
  intros H; apply andb_prop in H as (-> & H); simpl; auto.
Qed.

(** An exception raised by the calls of a statement that is reached ends
    the run with that exception. *)
Lemma run_propagates (raised : nat -> option exn) (e : exn)
  (pre post : list statement) (st : statement) (ns ns' : namespace) :
  run raised ns pre = Ok ns' ->
  forallb (bound ns') (reads st) = true ->
  raised (line st) = Some e ->
  run raised ns (pre ++ st :: post) = Raise e.
Proof.
  revert ns; induction pre as [|p pre IH]; intros ns Hpre Hbound Hraised;
    simpl in *.
  - injection Hpre as <-. unfold exec.
    now rewrite find_unbound_none, Hraised.
  - destruct (exec raised ns p) as [ns1|e1]; simpl in *; [|discriminate].
    now apply IH.
Qed.

(** C3. Run from a fresh kernel, notebook 12 stops at line 122 with a
    [NameError]: [labels], which the distance distribution is computed
    from, is bound by no cell; the other three notebooks bind every name
    before it is used. *)
Theorem arbitrary_labels_stops_on_unbound_name :
  run_all no_error arbitrary_labels = Raise (NameError "labels") /\
  (forall cell st, In cell arbitrary_labels -> In st cell ->
     In "labels"%string (binds st) -> False) /\
  forallb (fun nb => completes (run_all no_error nb))
    [site_screen; membrane_docking; openmm_score] = true.
Proof.
  split; [reflexivity|]. split; [|reflexivity].
  intros cell st Hcell Hst Hb.
  unfold arbitrary_labels in Hcell; simpl in Hcell.
  repeat (destruct Hcell as [<-|Hcell];
          [simpl in Hst;
           repeat (destruct Hst as [<-|Hst];
                   [simpl in Hb;
                    repeat (destruct Hb as [Hb|Hb]; [discriminate|]);
                    exact Hb|]);
           exact Hst|]).
  exact Hcell.
Qed.

End KernelFacts.

(** ** Across the notebooks *)

Module RepositoryFacts.

Import OpenMMScore Repository.

(** *** The calls to [xl.save] *)

Lemma forallb_map_PEnsemble (labels : list RotamerEnsemble) :
  forallb is_molecule (map PEnsemble labels) = true.
Proof.
  induction labels; simpl; auto.
Qed.

(** C2, as stated, fails: the site screen calls [xl.save(SL1, SL2, t4l)],
    whose first argument is a label. *)
Lemma site_screen_saves_without_a_path : ~ every_save_call_passes_a_path.
Proof.
  intros (Hscreen & _).
  destruct (Hscreen demo_system demo_system demo_protein)
    as (path & objs & Heq & _).
  discriminate Heq.
Qed.

(** C2, amended. Every call to [xl.save] passes label and protein objects;
    an output path comes before them in the membrane docking and in
    [OpenMMEnergyFunc.__init__], and no path is passed by the site screen
    and by notebook 12. *)
Theorem save_calls_pass_molecules_after_an_optional_path :
  (forall SL1 SL2 t4l,
     forallb is_molecule (SiteScreen.save_args SL1 SL2 t4l) = true)
  /\
  (forall docking : MembraneDocking.Inputs,
     path_then_molecules (@MembraneDocking.save_args docking))
  /\
  (forall labels prot,
     forallb is_molecule (ArbitraryLabels.save_args labels prot) = true)
  /\
  (forall tempdir protein,
     path_then_molecules (init_save_args tempdir protein)).
Proof.
  repeat split.
  - intros. unfold MembraneDocking.save_args.
    eexists _, _; split; [reflexivity|].
    rewrite forallb_app, forallb_map_PEnsemble; reflexivity.
  - intros. unfold ArbitraryLabels.save_args.
    rewrite forallb_app, forallb_map_PEnsemble; reflexivity.
  - intros. unfold init_save_args.
    eexists _, _; split; reflexivity.
Qed.

(** *** The distance distributions *)

Lemma leading_ensembles_app (labels : list RotamerEnsemble) (r : list R) :
  leading_ensembles (map PEnsemble labels ++ [PGrid r]) = labels.
Proof.
  induction labels as [|l labels IH]; simpl; congruence.
Qed.

Lemma length_linspace (a b : R) (n : nat) : length (linspace a b n) = n.
Proof.
  unfold linspace; now rewrite length_map, length_seq.
Qed.

Lemma distance_distribution_of_labels
  (density : list RotamerEnsemble -> R -> R)
  (labels : list RotamerEnsemble) (r : list R) :
  2 <= length labels ->
  distance_distribution density (map PEnsemble labels ++ [PGrid r])
  = Ok (map (density labels) r).
Proof.
  intros Hlabels; unfold distance_distribution.
  rewrite last_last, leading_ensembles_app, length_app, length_map.
  replace (2 <=? length labels) with true
    by (symmetry; now apply Nat.leb_le).
  replace (length labels + length [PGrid r] =? S (length labels)) with true
    by (symmetry; apply Nat.eqb_eq; simpl; lia).
  reflexivity.
Qed.

(** C9. Both distance distributions are computed from at least two labels
    and a grid of 256 points, and the density array has one entry per grid
    point: in the site screen always, in notebook 12 for whatever two or
    more labels [labels] holds. *)
Theorem distance_distributions_cover_the_grid
  (density : list RotamerEnsemble -> R -> R)
  (SL1 SL2 : RotamerEnsemble) (labels : list RotamerEnsemble) :
  2 <= length labels ->
  (exists P,
     distance_distribution density (SiteScreen.distribution_args SL1 SL2)
       = Ok P /\
     P = map (density [SL1; SL2]) (linspace 15 80 256) /\
     length P = 256) /\
  (exists P,
     distance_distribution density (ArbitraryLabels.distribution_args labels)
       = Ok P /\
     P = map (density labels) (linspace 15 100 256) /\
     length P = 256).
Proof.
  intros Hlabels; split.
  - exists (map (density [SL1; SL2]) (linspace 15 80 256)); split.
    + apply (@distance_distribution_of_labels density [SL1; SL2]); simpl; lia.
    + split; [reflexivity|]. now rewrite length_map, length_linspace.
  - exists (map (density labels) (linspace 15 100 256)); split.
    + now apply distance_distribution_of_labels.
    + split; [reflexivity|]. now rewrite length_map, length_linspace.
Qed.

Lemma distance_distributions_cover_the_grid_witness :
  (exists P,
     distance_distribution (fun _ _ => 0%R)
       (SiteScreen.distribution_args demo_system demo_residue) = Ok P /\
     P = map (fun _ => 0%R) (linspace 15 80 256) /\
     length P = 256) /\
  (exists P,
     distance_distribution (fun _ _ => 0%R)
       (ArbitraryLabels.distribution_args [demo_system; demo_residue])
       = Ok P /\
     P = map (fun _ => 0%R) (linspace 15 100 256) /\
     length P = 256).
Proof.
  apply (@distance_distributions_cover_the_grid (fun _ _ => 0%R)
           demo_system demo_residue [demo_system; demo_residue]).
  simpl; lia.
Defined.

(** *** The attributes of a label ensemble that the notebooks read *)

(** C10, as stated, fails: the score of the site screen reads [SL.site], so
    two labels with the same centroid and conformations at different sites
    score differently. *)
Lemma site_screen_score_reads_site :
  ~ labels_are_read_through_spin_centroid_and_coords.
Proof.
  intros H.
  specialize (H (label_at 1 (0, 0, 0)%R) (label_at 2 (0, 0, 0)%R)
                (label_at 3 (30, 0, 0)%R) 200%R 200%R eq_refl eq_refl).
  unfold SiteScreen.score, SiteScreen.mean_dist, norm, vsub in H; simpl in H.
  set (d := sqrt _) in H. set (c := Rpower _ _) in H.
  assert (Hd : (0 < d)%R) by (apply sqrt_lt_R0; unfold vx, vy, vz; simpl; lra).
  assert (Hc : (0 < c)%R) by apply exp_pos.
  apply (Rmult_eq_compat_r c) in H. field_simplify in H; lra.
Qed.

Section Reads.

Context {lib : Libraries}.

Lemma energy_loop_reads (self : OpenMMEnergyFunc) (s s' : RotamerEnsemble) :
  efunc_protein_ix s = efunc_protein_ix s' ->
  efunc_residue_ix s = efunc_residue_ix s' ->
  forall rots pose Es,
    energy_loop self s rots pose Es = energy_loop self s' rots pose Es.
Proof.
  intros Hp Hr; induction rots as [|rot rest IH]; intros pose Es; simpl; auto.
  rewrite Hp, Hr.
  destruct (getattr _ (efunc_residue_ix s')) as [rix|]; simpl; auto.
  destruct (rows_of rot rix) as [v|]; simpl; auto.
  destruct (getattr _ (efunc_protein_ix s')) as [pix|]; simpl; auto.
  destruct (setitem pose pix v) as [pose'|]; simpl; auto.
  destruct (getPotentialEnergy _ pose'); simpl; auto.
Qed.

Lemma ensure_prepared_reads (self : OpenMMEnergyFunc)
  (s s' : RotamerEnsemble) :
  same_for_efunc s s' ->
  same_for_efunc (fst (ensure_prepared self s))
    (fst (ensure_prepared self s')) /\
  snd (ensure_prepared self s) = snd (ensure_prepared self s').
Proof.
  intros (Hc & Hs & Hp & Hr); unfold ensure_prepared.
  rewrite Hp. destruct (hasattr (efunc_protein_ix s')); simpl.
  - repeat split; auto.
  - unfold prepare_system. rewrite Hs.
    destruct (select_atoms _ _) as [psel|e]; simpl.
    + unfold match_atoms; simpl. rewrite Hc.
      destruct (match_atoms_loop _ _ _ _); simpl; repeat split; auto.
    + repeat split; auto.
Qed.

(** C10, amended. A label ensemble has a [spin_centroid], one point, and
    [coords], its conformations.  Of a label, the site screen reads
    [spin_centroid] and [site]; the objective of the membrane docking reads
    [spin_centroid]; the energy function reads [coords], [selstr] and the
    two index maps it stored. *)
Theorem notebooks_read_named_attributes
  (SL1 SL1' SL2 SL2' : RotamerEnsemble) (vol1 vol2 : R)
  (docking docking' : MembraneDocking.Inputs) (par : R * R * R * R)
  (self : OpenMMEnergyFunc) (s s' : RotamerEnsemble) :
  spin_centroid SL1 = spin_centroid SL1' -> site SL1 = site SL1' ->
  spin_centroid SL2 = spin_centroid SL2' -> site SL2 = site SL2' ->
  @MembraneDocking.table docking = @MembraneDocking.table docking' ->
  @MembraneDocking.from_euler_xyz docking
  = @MembraneDocking.from_euler_xyz docking' ->
  (forall at_site,
     spin_centroid (@MembraneDocking.SpinLabel docking at_site)
     = spin_centroid (@MembraneDocking.SpinLabel docking' at_site)) ->
  same_for_efunc s s' ->
  (exists (p : vec3) (c : list (list vec3)),
     spin_centroid SL1 = p /\ coords SL1 = c) /\
  SiteScreen.score (SiteScreen.mean_dist SL1 SL2) SL1 vol1 SL2 vol2
  = SiteScreen.score (SiteScreen.mean_dist SL1' SL2') SL1' vol1 SL2' vol2 /\
  @MembraneDocking.objective docking par
  = @MembraneDocking.objective docking' par /\
  snd (OpenMMEnergyFunc_call self s) = snd (OpenMMEnergyFunc_call self s').
Proof.
  intros Hc1 Hs1 Hc2 Hs2 Htable Heuler Hlabel Hefunc.
  split; [eexists _, _; split; reflexivity|].
  split; [unfold SiteScreen.score, SiteScreen.mean_dist;
          now rewrite Hc1, Hs1, Hc2, Hs2|].
  split.
  - assert (Hcent : @MembraneDocking.spin_centroids docking
                     = @MembraneDocking.spin_centroids docking').
    { unfold MembraneDocking.spin_centroids, MembraneDocking.label_list,
        MembraneDocking.sites.
      rewrite Htable, !map_map. now apply map_ext. }
    unfold MembraneDocking.objective, MembraneDocking.spin_at_ori,
      MembraneDocking.depths.
    now rewrite Hcent, Htable, Heuler.
  - unfold OpenMMEnergyFunc_call.
    destruct (ensure_prepared_reads self Hefunc) as ((Hc & _ & Hp & Hr) & Hsnd).
    destruct (ensure_prepared self s) as [t r].
    destruct (ensure_prepared self s') as [t' r']; simpl in *.
    rewrite Hsnd, Hc. destruct r'; simpl; auto.
    now apply energy_loop_reads.
Qed.

End Reads.

(** Two docking inputs that differ in the labels' sites and conformations
    only. *)
Definition demo_docking (SpinLabel : R -> RotamerEnsemble)
  : MembraneDocking.Inputs :=
  {| MembraneDocking.table := [(48, 3)%R];
     MembraneDocking.CPLA_C2 := demo_protein;
     MembraneDocking.SpinLabel := SpinLabel;
     MembraneDocking.from_euler_xyz :=
       fun _ _ _ => ((1, 0, 0), (0, 1, 0), (0, 0, 1))%R;
     MembraneDocking.minimize := fun _ => (0, 0, 0, 0)%R;
     MembraneDocking.select_backbone := fun g _ => positions g;
     MembraneDocking.to_site := fun SL _ => SL |}.

Lemma notebooks_read_named_attributes_witness :
  (exists (p : vec3) (c : list (list vec3)),
     spin_centroid demo_residue = p /\ coords demo_residue = c) /\
  SiteScreen.score (SiteScreen.mean_dist demo_residue demo_system)
    demo_residue 120 demo_system 150
  = SiteScreen.score
      (SiteScreen.mean_dist (label_at 1 (1, 0, 0)%R) (label_at 48 (6, 0, 0)%R))
      (label_at 1 (1, 0, 0)%R) 120 (label_at 48 (6, 0, 0)%R) 150 /\
  @MembraneDocking.objective (demo_docking (fun _ => demo_system))
    (0, 0, 0, 0)%R
  = @MembraneDocking.objective
      (demo_docking (fun _ => label_at 7 (6, 0, 0)%R)) (0, 0, 0, 0)%R /\
  snd (OpenMMEnergyFunc_call demo_efunc demo_prepared)
  = snd (OpenMMEnergyFunc_call demo_efunc
           (set_efunc_residue_ix
              (set_efunc_protein_ix
                 {| site := 7; spin_centroid := (0, 0, 0)%R;
                    coords := coords demo_system;
                    selstr := selstr demo_system;
                    efunc_protein_ix := None; efunc_residue_ix := None |}
                 [1]) (Some [0]))).
Proof.
  apply (@notebooks_read_named_attributes demo_lib);
    try reflexivity.
  repeat split; reflexivity.
Defined.

End RepositoryFacts.

(** ** The control structure: how exceptions leave *)

Module ControlFacts.

Import Control Repository.

Lemma escapes_weaken (ls ls' : list nat) (bs bs' : list (nat * list nat))
  (t : list event) (o : outcome) :
  incl ls ls' -> incl bs bs' -> escapes ls bs t o -> escapes ls' bs' t o.
Proof.
  intros Hls Hbs H; destruct H.
  - now apply nothing_raised.
  - apply raised_last; auto.
  - eapply raised_in_with; eauto.
  - eapply replaced_by_cleanup; eauto.
  - eapply cleanup_raised; eauto.
Qed.

Lemma escapes_prepend (ls : list nat) (bs : list (nat * list nat))
  (pre t : list event) (o : outcome) :
  Forall returned pre -> escapes ls bs t o -> escapes ls bs (pre ++ t) o.
Proof.
  intros Hpre H; destruct H; rewrite ?app_assoc.
  - apply nothing_raised; auto. now apply Forall_app.
  - apply raised_last; auto. now apply Forall_app.
  - eapply raised_in_with; eauto. now apply Forall_app.
  - eapply replaced_by_cleanup; eauto. now apply Forall_app.
  - eapply cleanup_raised; eauto. now apply Forall_app.
Qed.

(** A run that ended without an exception met none. *)
Lemma escapes_quietly (ls : list nat) (bs : list (nat * list nat))
  (t : list event) (o : outcome) :
  escapes ls bs t o -> (forall e, o <> Raised e) -> Forall returned t.
Proof.
  intros H Ho; destruct H; auto; now destruct (Ho _ eq_refl).
Qed.

Lemma operation_escapes (ls : list nat) (bs : list (nat * list nat))
  (line : nat) (next : list answer -> state) (s : list answer) :
  In line ls ->
  (forall s', escapes ls bs (trace (next s')) (result_of (next s'))) ->
  escapes ls bs (trace (operation line s next))
    (result_of (operation line s next)).
Proof.
  intros Hline Hnext. unfold operation.
  assert (Hgo : escapes ls bs
            (trace (let '(t, o, s') := next (tl s) in (Step line None :: t, o, s')))
            (result_of
               (let '(t, o, s') := next (tl s) in (Step line None :: t, o, s')))).
  { specialize (Hnext (tl s)).
    destruct (next (tl s)) as [[t o] s']; unfold trace, result_of in *; simpl in *.
    apply (@escapes_prepend ls bs [Step line None]); auto.
    repeat constructor. }
  destruct s as [|[| | |e] s']; auto.
  apply (@raised_last ls bs [] line e); auto.
Qed.

Lemma plain_withs (c : code) : plain c = true -> withs c = [].
Proof.
  induction c; simpl; intros H; auto; try discriminate;
    try (apply andb_prop in H as (H1 & H2); rewrite IHc1, IHc2; auto).
Qed.

Lemma plain_outside (c : code) : plain c = true -> outside c = lines c.
Proof.
  induction c; simpl; intros H; auto; try discriminate;
    try (apply andb_prop in H as (H1 & H2); rewrite IHc1, IHc2; auto);
    rewrite IHc; auto.
Qed.

Lemma plain_flat (c : code) : plain c = true -> flat c = true.
Proof.
  induction c; simpl; intros H; auto; try discriminate;
    apply andb_prop in H as (H1 & H2); rewrite IHc1, IHc2; auto.
Qed.

Lemma iterations_escape (ls : list nat) (bs : list (nat * list nat))
  (line : nat) (body : list answer -> state) :
  In line ls ->
  (forall s, escapes ls bs (trace (body s)) (result_of (body s))) ->
  forall items s,
    escapes ls bs (trace (iterations body line items s))
      (result_of (iterations body line items s)).
Proof.
  intros Hline Hbody.
  induction items as [|items IH]; intros s; simpl.
  - apply nothing_raised; [constructor | discriminate].
  - apply operation_escapes; auto. intros s0.
    specialize (Hbody s0).
    destruct (body s0) as [[t1 o1] s1]; unfold trace, result_of in *;
      simpl in *.
    destruct o1; auto;
      (specialize (IH s1);
       destruct (iterations body line items s1) as [[t2 o2] s2]; simpl in *;
       apply escapes_prepend; auto;
       eapply escapes_quietly; eauto; discriminate).
Qed.

(** Code without a handler, whose [with] blocks do not nest: an exception
    leaves as [escapes] says. *)
Lemma flat_code_escapes (c : code) :
  flat c = true ->
  forall s,
    escapes (outside c) (withs c) (trace (run c s)) (result_of (run c s)).
Proof.
  induction c as [| line | c1 IH1 c2 IH2 | line c1 IH1 c2 IH2 | line c IH
                 | line | line | line c IH | line c IH | c1 IH1 c2 IH2];
    simpl; intros Hflat s; try discriminate.
  - apply nothing_raised; [constructor | discriminate].
  - apply operation_escapes; [now left|].
    intros s'; apply nothing_raised; [constructor | discriminate].
  - apply andb_prop in Hflat as (H1 & H2).
    specialize (IH1 H1 s).
    destruct (run c1 s) as [[t1 o1] s1]; unfold trace, result_of in *;
      simpl in *.
    assert (Hw : escapes (outside c1 ++ outside c2) (withs c1 ++ withs c2) t1 o1).
    { eapply escapes_weaken; [| |exact IH1]; apply incl_appl, incl_refl. }
    destruct o1; auto.
    specialize (IH2 H2 s1).
    destruct (run c2 s1) as [[t2 o2] s2]; simpl in *.
    apply escapes_prepend.
    + eapply escapes_quietly; eauto; discriminate.
    + eapply escapes_weaken; [| |exact IH2]; apply incl_appr, incl_refl.
  - apply andb_prop in Hflat as (H1 & H2).
    assert (Hthen : forall s', escapes (line :: outside c1 ++ outside c2)
                      (withs c1 ++ withs c2) (trace (run c1 s'))
                      (result_of (run c1 s'))).
    { intros s'. eapply escapes_weaken; [| |exact (IH1 H1 s')].
      - apply incl_tl, incl_appl, incl_refl.
      - apply incl_appl, incl_refl. }
    assert (Helse : forall s', escapes (line :: outside c1 ++ outside c2)
                      (withs c1 ++ withs c2) (trace (run c2 s'))
                      (result_of (run c2 s'))).
    { intros s'. eapply escapes_weaken; [| |exact (IH2 H2 s')].
      - apply incl_tl, incl_appr, incl_refl.
      - apply incl_appr, incl_refl. }
    destruct s as [|[| | |e] s']; apply operation_escapes; auto; now left.
  - assert (Hbody : forall s', escapes (line :: outside c) (withs c)
                      (trace (run c s')) (result_of (run c s'))).
    { intros s'. eapply escapes_weaken; [| |exact (IH Hflat s')].
      - apply incl_tl, incl_refl.
      - apply incl_refl. }
    destruct s as [|[| |items|e] s']; apply operation_escapes;
      try (now left);
      try (intros s0; apply nothing_raised; [constructor | discriminate]).
    intros s0. apply iterations_escape; auto. now left.
  - apply nothing_raised; [constructor | discriminate].
  - apply operation_escapes; [now left|].
    intros s'; apply nothing_raised; [constructor | discriminate].
  - apply operation_escapes; [now left|]. intros s0.
    specialize (IH Hflat s0).
    destruct (run c s0) as [[t o] s1]; unfold trace, result_of in *;
      simpl in *.
    assert (Hw : escapes (line :: outside c) (withs c) t o).
    { eapply escapes_weaken; [| |exact IH];
        [apply incl_tl, incl_refl | apply incl_refl]. }
    assert (Hpost : escapes (line :: outside c) (withs c)
              (trace (operation line s1 (fun s => ([], Normal, s))))
              (result_of (operation line s1 (fun s => ([], Normal, s))))).
    { apply operation_escapes; [now left|].
      intros s'; apply nothing_raised; [constructor | discriminate]. }
    destruct o; auto;
      (destruct (operation line s1 (fun s => ([], Normal, s)))
         as [[t' o'] s2]; unfold trace, result_of in *; simpl in *;
       apply escapes_prepend; auto;
       eapply escapes_quietly; eauto; discriminate).
  - apply operation_escapes; [now left|]. intros s0.
    specialize (IH (plain_flat c Hflat) s0).
    rewrite (plain_withs c Hflat), (plain_outside c Hflat) in *.
    destruct (run c s0) as [[t o] s1]; unfold trace, result_of in *;
      simpl in *.
    assert (Hblock : In (line, lines c) [(line, lines c)]) by now left.
    inversion IH as [pre o0 Hpre Ho | pre l e Hpre Hl | pre w ls l e Hpre Hw
                    | pre w ls l e e' Hpre Hw | pre w ls e' Hpre Hw];
      subst; try contradiction.
    + destruct s1 as [|[| | |e'] s2]; unfold trace, result_of; simpl;
        try (apply nothing_raised; auto; apply Forall_app; split; auto;
             repeat constructor).
      eapply cleanup_raised; eauto.
    + destruct s1 as [|[| | |e'] s2]; unfold trace, result_of; simpl;
        rewrite <- app_assoc; simpl.
      1-4: eapply raised_in_with; eauto.
      eapply replaced_by_cleanup; eauto.
Qed.

(** With line 95, [xl.save], raising in [__init__]: the cleanup of the
    [with] block of line 94 runs, and the exception goes on. *)
Example save_raises_in_init :
  run openmm_score (repeat Go 14 ++ [Fail (LibraryError 1)])
  = (map (fun l => Step l None)
       [33; 34; 35; 37; 38; 40; 41; 51; 81; 149; 152; 90; 91; 94]
     ++ [Step 95 (Some (LibraryError 1)); Exit 94 None],
     Raised (LibraryError 1), []).
Proof. reflexivity. Qed.

(** When the cleanup raises as well, its exception is the one that leaves. *)
Example cleanup_raises_after_save :
  result_of (run openmm_score
               (repeat Go 14 ++ [Fail (LibraryError 1); Fail (LibraryError 2)]))
  = Raised (LibraryError 2).
Proof. reflexivity. Qed.

(** When creating the directory raises, the body and the cleanup do not
    run. *)
Example mkdtemp_raises_in_init :
  run openmm_score (repeat Go 13 ++ [Fail (LibraryError 3)])
  = (map (fun l => Step l None)
       [33; 34; 35; 37; 38; 40; 41; 51; 81; 149; 152; 90; 91]
     ++ [Step 94 (Some (LibraryError 3))],
     Raised (LibraryError 3), []).
Proof. reflexivity. Qed.

(** A handler would change this: the language of [code] has [Try], the
    notebooks have none. *)
Example a_handler_swallows :
  run (Try (Do 1) Pass) [Fail ValueError] = ([Step 1 (Some ValueError)], Normal, []).
Proof. reflexivity. Qed.

(** The statements listed here are the statements the kernel of module
    [Kernel] runs, cell after cell. *)
Lemma same_statements_as_the_kernel :
  map statements [site_screen; membrane_docking; arbitrary_labels; openmm_score]
  = map (fun nb => map Kernel.line (concat nb)) Kernel.notebooks.
Proof. reflexivity. Qed.

(** The [with] block as [OpenMMEnergyFunc.__init__] runs it on the small
    instance: the directory is created and removed; when [xl.save] raises,
    it is removed all the same and the exception goes on; when the cleanup
    raises too, its exception replaces that of [xl.save]. *)
Example init_of_demo :
  @OpenMMScore.OpenMMEnergyFunc_init OpenMMScore.demo_lib
    OpenMMScore.demo_protein []
  = ([OpenMMScore.Mkdtemp "tmp0"; OpenMMScore.Rmtree "tmp0"],
     Ok OpenMMScore.demo_efunc).
Proof. reflexivity. Qed.

Example init_with_failing_save :
  @OpenMMScore.OpenMMEnergyFunc_init OpenMMScore.failing_save_lib
    OpenMMScore.demo_protein []
  = ([OpenMMScore.Mkdtemp "tmp0"; OpenMMScore.Rmtree "tmp0"],
     Raise (LibraryError 1)).
Proof. reflexivity. Qed.

Example init_with_failing_cleanup :
  @OpenMMScore.OpenMMEnergyFunc_init OpenMMScore.failing_cleanup_lib
    OpenMMScore.demo_protein []
  = ([OpenMMScore.Mkdtemp "tmp0"], Raise (LibraryError 2)).
Proof. reflexivity. Qed.

(** Both sides are computed, and the memberships decided. *)
Ltac settle Hskip Hskip0 :=
  cbn; rewrite <- ?app_assoc, ?Hskip, ?Hskip0; cbn;
  (split; [reflexivity|]);
  split; intros H;
  repeat (destruct H as [H|H]; try discriminate H);
  try contradiction; auto 12.

(** The two descriptions of [OpenMMEnergyFunc.__init__] agree: run against
    the answers of the libraries, the statements of [__init__] end as the
    function of module [OpenMMScore] ends, with the same exception if any,
    and the cleanup of line 94 returned exactly when the directory was
    removed. *)
Lemma init_runs_as_embedded {lib : OpenMMScore.Libraries}
  (protein : OpenMMScore.MolSys) (w : OpenMMScore.fs) :
  let r := run OpenMMEnergyFunc_init (init_answers protein w) in
  let embedded := OpenMMScore.OpenMMEnergyFunc_init protein w in
  result_of r = outcome_of (snd embedded) /\
  (In (Exit 94 None) (trace r) <->
   In (OpenMMScore.Rmtree (OpenMMScore.tmpname (length w)))
     (skipn (length w) (fst embedded))).
Proof.
  unfold init_answers, OpenMMScore.OpenMMEnergyFunc_init,
    OpenMMScore.with_TemporaryDirectory.
  set (tempdir := OpenMMScore.tmpname (length w)).
  assert (Hskip : forall t, skipn (length w) (w ++ t) = t).
  { intros t. rewrite skipn_app, skipn_all, Nat.sub_diag. reflexivity. }
  assert (Hskip0 : skipn (length w) w = []) by apply skipn_all.
  destruct (OpenMMScore.mkdtemp tempdir) as [[]|e0]; [|settle Hskip Hskip0].
  destruct (OpenMMScore.xl_save _) as [[]|e1];
    [|destruct (OpenMMScore.cleanup tempdir) as [[]|e]; settle Hskip Hskip0].
  destruct (OpenMMScore.PDBFile_topology _) as [topology|e2];
    [|destruct (OpenMMScore.cleanup tempdir) as [[]|e]; settle Hskip Hskip0].
  destruct (OpenMMScore.cleanup tempdir) as [[]|e3]; [|settle Hskip Hskip0].
  destruct (OpenMMScore.ForceField _) as [ff|e4]; [|settle Hskip Hskip0].
  destruct (OpenMMScore.createSystem _ topology) as [omm|e5] eqn:Hsys;
    [|cbn; rewrite Hsys; settle Hskip Hskip0].
  destruct OpenMMScore.LangevinMiddleIntegrator as [integrator|e6] eqn:Hint;
    [|cbn; rewrite Hsys; settle Hskip Hskip0].
  destruct (OpenMMScore.Simulation_new topology omm integrator) as [sim|e7]
    eqn:Hsim; cbn; rewrite Hsys; cbn; rewrite ?Hsim; settle Hskip Hskip0.
Qed.

(** C8, as stated, fails: when [xl.save] raises at line 95 of notebook 13,
    the cleanup of the [with] block of line 94 still runs before the
    exception reaches the top level. *)
Lemma with_block_cleans_up_on_error : ~ nothing_runs_after_an_exception.
Proof.
  intros H.
  destruct (H openmm_score (repeat Go 14 ++ [Fail (LibraryError 1)])
              (or_intror (or_intror (or_intror (or_intror (or_introl eq_refl)))))
              (map (fun l => Step l None)
                 [33; 34; 35; 37; 38; 40; 41; 51; 81; 149; 152; 90; 91; 94])
              95 (LibraryError 1) [Exit 94 None] eq_refl) as (Hpost & _).
  discriminate Hpost.
Qed.

(** C8, amended. No authored code holds a handler, and the one [with] block
    is that of line 94 in [__init__], around lines 95 and 96.  So in every
    run of a notebook, of [objective] and of [__call__], whatever the
    operations answer: everything returned up to the first operation that
    raised, and after it nothing ran, except that a raise at line 95 or 96
    is followed by the cleanup of the temporary directory; the exception
    that leaves is the one that was raised, unless that cleanup raised,
    whose exception then leaves in its place. *)
Theorem exceptions_propagate_unchanged :
  map handlers authored = [0; 0; 0; 0; 0; 0] /\
  map withs authored = [[]; []; []; []; [(94, [95; 96])]; []] /\
  (forall c l, In c authored -> In l (outside c) -> l <> 95 /\ l <> 96) /\
  forall c s, In c authored ->
    escapes (outside c) (withs c) (trace (run c s)) (result_of (run c s)).
Proof.
  split; [reflexivity|]. split; [reflexivity|]. split.
  { assert (Hall : forallb (fun c => forallb (fun l => negb ((l =? 95) || (l =? 96)))
                                (outside c)) authored = true) by reflexivity.
    intros c l Hc Hl.
    rewrite forallb_forall in Hall. specialize (Hall c Hc).
    rewrite forallb_forall in Hall. specialize (Hall l Hl).
    apply negb_true_iff, orb_false_iff in Hall as (H95 & H96).
    split; now apply Nat.eqb_neq. }
  intros c s Hc. apply flat_code_escapes.
  assert (Hall : forallb flat authored = true) by reflexivity.
  rewrite forallb_forall in Hall. now apply Hall.
Qed.

End ControlFacts.

(** ** Notebook 13, further: what a call does to the pose and the system *)

Module OpenMMCallFacts.

Import OpenMMScore OpenMMScoreFacts.

Lemma put_rows_same_writes {A} (ix : list nat) :
  forall (v a a' : list A),
    length ix <= length v ->
    length a = length a' ->
    (forall j, ~ In j ix -> nth_error a j = nth_error a' j) ->
    put_rows a ix v = put_rows a' ix v.
Proof.
  induction ix as [|i ix IH]; intros v a a' Hv Hlen Hout.
  - destruct v; simpl;
      apply nth_error_ext; intros j; apply Hout; intros [].
  - destruct v as [|x v]; simpl in *; [lia|].
    apply IH; [lia | now rewrite !length_upd |].
    intros j Hj. destruct (Nat.eq_dec i j) as [->|Hne].
    + destruct (Nat.lt_ge_cases j (length a)) as [Hlt|Hge].
      * rewrite !nth_error_upd_same; auto; lia.
      * assert (H1 : nth_error (upd j x a) j = None)
          by (apply nth_error_None; rewrite length_upd; lia).
        assert (H2 : nth_error (upd j x a') j = None)
          by (apply nth_error_None; rewrite length_upd; lia).
        congruence.
    + rewrite !nth_error_upd_other by assumption.
      apply Hout. intros [?|?]; [congruence | contradiction].
Qed.

(** Two poses of the same length that differ on the selected atoms only
    take the same write, with the same outcome. *)
Lemma setitem_same_writes {A} (ix : list nat) (v a a' : list A) :
  length a = length a' ->
  (forall j, ~ In j ix -> nth_error a j = nth_error a' j) ->
  setitem a ix v = setitem a' ix v.
Proof.
  intros Hlen Hout; unfold setitem. rewrite Hlen.
  destruct (forallb _ ix); auto.
  destruct (length v =? length ix) eqn:Hv.
  - apply Nat.eqb_eq in Hv. f_equal.
    apply put_rows_same_writes; auto; lia.
  - destruct v as [|x [|y v]]; auto. f_equal.
    apply put_rows_same_writes; auto. now rewrite repeat_length.
Qed.

Lemma setitem_keeps_the_rest {A} (ix : list nat) (v a b : list A) :
  setitem a ix v = Ok b ->
  length b = length a /\
  forall j, ~ In j ix -> nth_error b j = nth_error a j.
Proof.
  unfold setitem. destruct (forallb _ ix); [|discriminate].
  destruct (length v =? length ix).
  - intros H; injection H as <-. split;
      [apply put_rows_length | intros; now apply put_rows_outside].
  - destruct v as [|x [|y v]]; try discriminate.
    intros H; injection H as <-. split;
      [apply put_rows_length | intros; now apply put_rows_outside].
Qed.

Section Notebook.

Context {lib : Libraries}.

Lemma energy_loop_scores_each_on_its_own
  (self : OpenMMEnergyFunc) (system : RotamerEnsemble) (pose0 : list vec3) :
  forall rots pose Es0,
    length pose = length pose0 ->
    (forall pix, efunc_protein_ix system = Some pix ->
       forall j, ~ In j pix -> nth_error pose j = nth_error pose0 j) ->
    energy_loop self system rots pose Es0
    = Es <- for_each (energy_of_rotamer self system pose0) rots ;;
      Ok (Es0 ++ Es).
Proof.
  induction rots as [|rot rest IH]; intros pose Es0 Hlen Hout; simpl.
  - now rewrite app_nil_r.
  - set (tail := for_each (energy_of_rotamer self system pose0) rest) in *.
    unfold energy_of_rotamer.
    destruct (getattr _ (efunc_residue_ix system)) as [rix|e]; simpl; auto.
    destruct (rows_of rot rix) as [v|e]; simpl; auto.
    destruct (efunc_protein_ix system) as [pix|] eqn:Hpix; simpl; auto.
    rewrite (@setitem_same_writes _ pix v pose pose0)
      by (auto; intros; eapply Hout; eauto).
    destruct (setitem pose0 pix v) as [pose'|e] eqn:Hset; simpl; auto.
    destruct (getPotentialEnergy (simulation self) pose') as [E|e]; simpl;
      auto.
    destruct (setitem_keeps_the_rest _ _ _ Hset) as (Hlen' & Hout').
    rewrite (IH pose' (Es0 ++ [E])); auto.
    + destruct tail; simpl; auto.
      now rewrite <- app_assoc.
    + intros pix' Hpix' j Hj. injection Hpix' as <-. auto.
Qed.

Lemma for_each_length {A B} (f : A -> result B) (xs : list A) (ys : list B) :
  for_each f xs = Ok ys -> length ys = length xs.
Proof.
  revert ys; induction xs as [|x xs IH]; intros ys; simpl.
  - intros H; now injection H as <-.
  - destruct (f x); [|discriminate].
    destruct (for_each f xs) as [zs|]; [|discriminate].
    intros H; injection H as <-. simpl; f_equal; auto.
Qed.

(** X1. [pose_start] is bound once, before the loop, and every iteration
    writes into that same array.  Each write replaces all the rows at
    [efunc_protein_ix], so the pose handed to OpenMM for a conformation is
    the protein's pose with that conformation alone written in: a call
    equals, also when it raises, the preparation if needed followed by the
    energy of each conformation in turn, each computed from the protein's
    pose; and a call that returns returns one energy per conformation.
    OpenMM's energy is taken as a function of the positions set. *)
Theorem call_scores_each_conformation_on_its_own
  (self : OpenMMEnergyFunc) (system : RotamerEnsemble) :
  let prepared := ensure_prepared self system in
  OpenMMEnergyFunc_call self system
  = (fst prepared,
     _ <- snd prepared ;;
     for_each (energy_of_rotamer self (fst prepared)
                 (positions (protein self)))
       (coords (fst prepared))) /\
  forall Es, snd (OpenMMEnergyFunc_call self system) = Ok Es ->
    length Es = length (coords system).
Proof.
  assert (Heq : OpenMMEnergyFunc_call self system
    = (fst (ensure_prepared self system),
       _ <- snd (ensure_prepared self system) ;;
       for_each (energy_of_rotamer self (fst (ensure_prepared self system))
                   (positions (protein self)))
         (coords (fst (ensure_prepared self system))))).
  { unfold OpenMMEnergyFunc_call.
    destruct (ensure_prepared self system) as [s r]; simpl.
    destruct r as [[]|e]; simpl; auto.
    rewrite (@energy_loop_scores_each_on_its_own self s
               (positions (protein self))); auto.
    destruct (for_each _ (coords s)); reflexivity. }
  split; [exact Heq|].
  intros Es HEs. rewrite Heq in HEs; simpl in HEs.
  assert (Hcoords : coords (fst (ensure_prepared self system))
                    = coords system).
  { unfold ensure_prepared, prepare_system.
    destruct (hasattr _); auto.
    destruct (select_atoms _ _); auto.
    destruct (match_atoms _ _); auto. }
  destruct (snd (ensure_prepared self system)); [|discriminate].
  simpl in HEs. rewrite <- Hcoords. eapply for_each_length; eauto.
Qed.

(** X2. Whatever a call does, and also when it raises, the system keeps its
    conformations, site, spin centroid and selection string: only the two
    index maps are ever written. *)
Theorem call_writes_only_the_index_maps
  (self : OpenMMEnergyFunc) (system : RotamerEnsemble) :
  let after := fst (OpenMMEnergyFunc_call self system) in
  coords after = coords system /\
  site after = site system /\
  spin_centroid after = spin_centroid system /\
  selstr after = selstr system /\
  (hasattr (efunc_protein_ix system) = true -> after = system).
Proof.
  unfold OpenMMEnergyFunc_call, ensure_prepared, prepare_system.
  destruct (hasattr (efunc_protein_ix system)); simpl; auto 6.
  destruct (select_atoms _ _); simpl.
  - destruct (match_atoms _ _); simpl; repeat split; auto; discriminate.
  - repeat split; auto; discriminate.
Qed.

(** X3. When the assignment fails inside the first preparation, the system
    is left with [efunc_protein_ix] but without [efunc_residue_ix]: the
    exception reaches the caller, and every later call on that system skips
    the preparation and raises [AttributeError] at its first conformation. *)
Theorem failed_matching_leaves_a_half_prepared_system
  (self : OpenMMEnergyFunc) (system : RotamerEnsemble) (psel : AtomGroup)
  (e : exn) :
  efunc_protein_ix system = None ->
  efunc_residue_ix system = None ->
  select_atoms (protein self) (selstr system) = Ok psel ->
  match_atoms psel (set_efunc_protein_ix system (ix psel)) = Raise e ->
  let left := set_efunc_protein_ix system (ix psel) in
  OpenMMEnergyFunc_call self system = (left, Raise e) /\
  coords left <> [] /\
  OpenMMEnergyFunc_call self left
  = (left, Raise (AttributeError "efunc_residue_ix")).
Proof.
  intros Hp Hr Hsel Hmatch left.
  assert (Hne : coords system <> []).
  { intros Hnil. unfold match_atoms in Hmatch; simpl in Hmatch.
    rewrite Hnil in Hmatch. discriminate. }
  split; [|split; [exact Hne|]].
  - unfold OpenMMEnergyFunc_call, ensure_prepared, prepare_system.
    rewrite Hp; simpl. now rewrite Hsel, Hmatch.
  - rewrite call_on_prepared by reflexivity. f_equal.
    unfold left; simpl.
    destruct (coords system) as [|rot rest]; [congruence|].
    simpl. now rewrite Hr.
Qed.

(** X4. On a system without conformations the first call stores the
    selection's indices and [None] as the residue map, and returns an empty
    array: neither the assignment nor OpenMM is asked. *)
Theorem call_on_an_empty_ensemble
  (self : OpenMMEnergyFunc) (system : RotamerEnsemble) (psel : AtomGroup) :
  efunc_protein_ix system = None ->
  coords system = [] ->
  select_atoms (protein self) (selstr system) = Ok psel ->
  OpenMMEnergyFunc_call self system
  = (set_efunc_residue_ix (set_efunc_protein_ix system (ix psel)) None,
     Ok []).
Proof.
  intros Hp Hnil Hsel.
  unfold OpenMMEnergyFunc_call, ensure_prepared, prepare_system, match_atoms.
  rewrite Hp; simpl. rewrite Hsel; simpl. rewrite Hnil; simpl.
  now rewrite Hnil.
Qed.

End Notebook.

Lemma failed_matching_leaves_a_half_prepared_system_witness :
  let left := set_efunc_protein_ix demo_system [1] in
  @OpenMMEnergyFunc_call failing_assignment_lib failing_assignment_efunc
    demo_system
  = (left, Raise ValueError) /\
  coords left <> [] /\
  @OpenMMEnergyFunc_call failing_assignment_lib failing_assignment_efunc left
  = (left, Raise (AttributeError "efunc_residue_ix")).
Proof.
  apply (@failed_matching_leaves_a_half_prepared_system
           failing_assignment_lib failing_assignment_efunc demo_system
           {| ix := [1]; positions := [(1, 0, 0)%R] |} ValueError);
    reflexivity.
Defined.

Lemma call_on_an_empty_ensemble_witness :
  @OpenMMEnergyFunc_call demo_lib demo_efunc demo_empty
  = (set_efunc_residue_ix (set_efunc_protein_ix demo_empty [1]) None, Ok []).
Proof.
  apply (@call_on_an_empty_ensemble demo_lib demo_efunc demo_empty
           {| ix := [1]; positions := [(1, 0, 0)%R] |}); reflexivity.
Defined.

End OpenMMCallFacts.

(** ** Notebook 13, further: which pairing [match_atoms] keeps *)

Module MatchAtomsFacts.

Import OpenMMScore PairingFacts OpenMMScoreFacts.

Section Notebook.

Context {lib : Libraries}.

Lemma match_atoms_loop_returns (reference : list vec3) :
  forall subs dmin_score dmap,
    (forall sub, In sub subs -> exists r, pairing reference sub = Ok r) ->
    exists res, match_atoms_loop reference subs dmin_score dmap = Ok res.
Proof.
  induction subs as [|sub rest IH]; intros dmin_score dmap Hall; simpl.
  - now exists dmap.
  - destruct (Hall sub (or_introl eq_refl)) as ((cols & score) & ->); simpl.
    destruct (lt_bound score dmin_score); apply IH;
      intros; apply Hall; now right.
Qed.

(** The loop keeps the first rotamer that no rotamer beats: those before it
    score strictly more, those after it no less. *)
Lemma match_atoms_loop_first_best (reference : list vec3) :
  forall subs dmin_score dmap res,
    match_atoms_loop reference subs dmin_score dmap = Ok res ->
    (res = dmap /\
     forall sub cols score, In sub subs ->
       pairing reference sub = Ok (cols, score) ->
       bound_le dmin_score score)
    \/
    (exists before sub after cols score,
       subs = before ++ sub :: after /\
       pairing reference sub = Ok (cols, score) /\
       res = Some cols /\ lt_bound score dmin_score = true /\
       (forall b cb sb, In b before ->
          pairing reference b = Ok (cb, sb) -> (score < sb)%R) /\
       (forall a ca sa, In a after ->
          pairing reference a = Ok (ca, sa) -> (score <= sa)%R)).
Proof.
  induction subs as [|sub0 rest IH]; intros dmin_score dmap res Hrun;
    simpl in Hrun.
  - injection Hrun as <-. left; split; auto. intros ? ? ? [].
  - destruct (pairing reference sub0) as [[c0 s0]|e] eqn:Hp0;
      [simpl in Hrun | discriminate].
    destruct (lt_bound s0 dmin_score) eqn:Hlt.
    + right.
      destruct (IH _ _ _ Hrun)
        as [(-> & Hall)
           | (before & sub & after & cols & s & -> & Hp & -> & Hlt' & Hb & Ha)].
      * exists [], sub0, rest, c0, s0.
        split; [reflexivity|]. split; [assumption|].
        split; [reflexivity|]. split; [assumption|]. split.
        -- intros b cb sb [].
        -- intros a ca sa Hin Hpa. apply (Hall a ca sa Hin Hpa).
      * exists (sub0 :: before), sub, after, cols, s.
        split; [reflexivity|]. split; [assumption|].
        split; [reflexivity|]. split; [eapply lt_bound_trans; eauto|]. split.
        -- intros b cb sb [<-|Hin] Hpb; [|eapply Hb; eauto].
           rewrite Hp0 in Hpb; injection Hpb as _ <-.
           simpl in Hlt'. destruct (Rlt_dec s s0); [lra|discriminate].
        -- assumption.
    + destruct (IH _ _ _ Hrun)
        as [(-> & Hall)
           | (before & sub & after & cols & s & -> & Hp & -> & Hlt' & Hb & Ha)].
      * left; split; auto.
        intros sub cols score [<-|Hin] Hp; [|eapply Hall; eauto].
        rewrite Hp0 in Hp; injection Hp as _ <-. now apply lt_bound_false.
      * right. exists (sub0 :: before), sub, after, cols, s.
        split; [reflexivity|]. split; [assumption|].
        split; [reflexivity|]. split; [assumption|]. split; [|assumption].
        intros b cb sb [<-|Hin] Hpb; [|eapply Hb; eauto].
        rewrite Hp0 in Hpb; injection Hpb as _ <-.
        apply lt_bound_false in Hlt.
        destruct dmin_score as [d|]; simpl in *; [|contradiction].
        destruct (Rlt_dec s d); [lra|discriminate].
Qed.

(** X5. When the assignment returns for every rotamer, [match_atoms]
    returns the pairing of the first rotamer of least score: every rotamer
    before it scores strictly more, every rotamer after it no less. *)
Theorem match_atoms_keeps_the_first_best_rotamer
  (reference : AtomGroup) (subject : RotamerEnsemble) :
  coords subject <> [] ->
  (forall sub, In sub (coords subject) ->
     exists r, pairing (positions reference) sub = Ok r) ->
  exists before sub after cols score,
    coords subject = before ++ sub :: after /\
    pairing (positions reference) sub = Ok (cols, score) /\
    match_atoms reference subject = Ok (Some cols) /\
    (forall b cb sb, In b before ->
       pairing (positions reference) b = Ok (cb, sb) -> (score < sb)%R) /\
    (forall a ca sa, In a after ->
       pairing (positions reference) a = Ok (ca, sa) -> (score <= sa)%R).
Proof.
  intros Hne Hall. unfold match_atoms.
  destruct (@match_atoms_loop_returns (positions reference) (coords subject)
              None None Hall) as (res & Hres).
  destruct (match_atoms_loop_first_best _ _ _ _ Hres)
    as [(_ & Hbound)
       | (before & sub & after & cols & s & Heq & Hp & -> & _ & Hb & Ha)].
  - destruct (coords subject) as [|sub rest]; [congruence|].
    destruct (Hall sub (or_introl eq_refl)) as ((cols & score) & Hp).
    destruct (Hbound sub cols score (or_introl eq_refl) Hp).
  - exists before, sub, after, cols, s; repeat split; auto.
Qed.

(** X6. When some rotamer holds exactly the reference atoms, in whatever
    order, the map that [match_atoms] returns pairs every reference atom
    with an atom at its own position, in the rotamer the map was computed
    on. *)
Theorem match_atoms_recovers_an_exact_rearrangement
  (reference : AtomGroup) (subject : RotamerEnsemble) (n : nat)
  (sub0 : list vec3) (cols0 : list nat) :
  lsa_contract ->
  length (positions reference) = n ->
  Forall (fun sub => length sub = n) (coords subject) ->
  In sub0 (coords subject) ->
  Permutation cols0 (seq 0 n) ->
  rearranged (positions reference) sub0 cols0 ->
  exists sub dmap,
    In sub (coords subject) /\
    match_atoms reference subject = Ok (Some dmap) /\
    linear_sum_assignment (pairwise (positions reference) sub)
      = Ok (seq 0 n, dmap) /\
    Permutation dmap (seq 0 n) /\
    rearranged (positions reference) sub dmap.
Proof.
  intros Hlsa Hr Hn Hin0 Hperm0 Hre0.
  assert (Hlen0 : length sub0 = n) by (rewrite Forall_forall in Hn; auto).
  destruct (@permutation_in_range cols0 n Hperm0) as (Hc0 & Hcols0).
  (* the exact rearrangement costs nothing *)
  assert (Hzero : cost (pairwise (positions reference) sub0) cols0 = 0%R).
  { rewrite (@cost_of_pairing _ _ _ n) by auto.
    assert (Hterms : forall k,
              Np.sum (map (fun a => sqdist (nth a (positions reference) (0, 0, 0)%R)
                                   (nth (nth a cols0 0) sub0 (0, 0, 0)%R))
                        (seq k (n - k))) = 0%R
              \/ n < k).
    { intros k. destruct (Nat.lt_ge_cases n k) as [|Hk]; auto. left.
      remember (n - k) as m eqn:Hm. revert k Hk Hm.
      induction m as [|m IH]; intros k Hk Hm; simpl; [reflexivity|].
      rewrite sum_cons.
      assert (Hk' : k < length (positions reference)) by lia.
      specialize (Hre0 k Hk').
      assert (Hsame : nth (nth k cols0 0) sub0 (0, 0, 0)%R
                      = nth k (positions reference) (0, 0, 0)%R).
      { destruct (nth_error (positions reference) k) as [p|] eqn:Hp.
        - rewrite (nth_error_nth _ _ _ Hp), (nth_error_nth _ _ _ Hre0).
          reflexivity.
        - apply nth_error_None in Hp; lia. }
      rewrite Hsame, sqdist_same, (IH (S k)); [lra | lia | lia]. }
    destruct (Hterms 0) as [H|H]; [|lia]. now rewrite Nat.sub_0_r in H. }
  destruct (@match_atoms_loop_spec _ (positions reference) n Hlsa Hr
              (coords subject) None None Hn) as (res & Hres & Hcase).
  destruct Hcase as [(_ & Hall) | (sub & cols & score & Hin & Hp & -> & _ & Hall)].
  - destruct (pairing_optimal (positions reference) sub0 Hlsa Hr Hlen0)
      as (c & _ & Hpair & _).
    destruct (Hall sub0 c _ Hin0 Hpair).
  - assert (Hlen : length sub = n) by (rewrite Forall_forall in Hn; auto).
    destruct (pairing_optimal (positions reference) sub Hlsa Hr Hlen)
      as (dmap & Hrun & Hpair & Hperm & _).
    rewrite Hpair in Hp; injection Hp as <- <-.
    destruct (pairing_optimal (positions reference) sub0 Hlsa Hr Hlen0)
      as (c & _ & Hpair0 & _ & Hmin0).
    pose proof (Hall sub0 c _ Hin0 Hpair0) as Hle.
    pose proof (Hmin0 cols0 Hperm0) as Hle0.
    destruct (@permutation_in_range dmap n Hperm) as (Hc & Hcols).
    exists sub, dmap; repeat split; auto.
    intros a Ha.
    assert (Hsum : cost (pairwise (positions reference) sub) dmap = 0%R).
    { apply Rle_antisym; [lra|].
      rewrite (@cost_of_pairing _ _ _ n) by auto.
      apply sum_nonneg, Forall_forall. intros x Hx.
      apply in_map_iff in Hx as (k & <- & _). apply sqdist_nonneg. }
    rewrite (@cost_of_pairing _ _ _ n) in Hsum by auto.
    apply sum_zero_terms in Hsum.
    2:{ apply Forall_forall. intros x Hx.
        apply in_map_iff in Hx as (k & <- & _). apply sqdist_nonneg. }
    rewrite Forall_forall in Hsum.
    assert (Hterm : sqdist (nth a (positions reference) (0, 0, 0)%R)
                      (nth (nth a dmap 0) sub (0, 0, 0)%R) = 0%R).
    { apply Hsum. apply in_map_iff. exists a; split; auto.
      apply in_seq; lia. }
    apply sqdist_zero in Hterm.
    assert (Hb : nth a dmap 0 < n).
    { rewrite Forall_forall in Hcols. apply Hcols, nth_In. lia. }
    rewrite (nth_error_nth' sub (0, 0, 0)%R) by lia.
    rewrite (nth_error_nth' (positions reference) (0, 0, 0)%R) by lia.
    now rewrite Hterm.
Qed.

End Notebook.

Lemma demo_pairing_returns (sub : list vec3) :
  In sub (coords demo_residue) ->
  exists r, @pairing demo_lib (positions demo_protein) sub = Ok r.
Proof.
  intros Hin.
  assert (Hlen : length sub = 3).
  { destruct Hin as [<-|[<-|[]]]; reflexivity. }
  destruct (@pairing_optimal demo_lib (positions demo_protein) sub 3
              exhaustive_assignment_contract eq_refl Hlen)
    as (cols & _ & Hp & _).
  eexists; exact Hp.
Qed.

Lemma match_atoms_keeps_the_first_best_rotamer_witness :
  exists before sub after cols score,
    coords demo_residue = before ++ sub :: after /\
    @pairing demo_lib (positions demo_protein) sub = Ok (cols, score) /\
    @match_atoms demo_lib demo_protein demo_residue = Ok (Some cols) /\
    (forall b cb sb, In b before ->
       @pairing demo_lib (positions demo_protein) b = Ok (cb, sb) ->
       (score < sb)%R) /\
    (forall a ca sa, In a after ->
       @pairing demo_lib (positions demo_protein) a = Ok (ca, sa) ->
       (score <= sa)%R).
Proof.
  apply (@match_atoms_keeps_the_first_best_rotamer demo_lib demo_protein
           demo_residue).
  - discriminate.
  - exact demo_pairing_returns.
Defined.

Lemma match_atoms_recovers_an_exact_rearrangement_witness :
  exists sub dmap,
    In sub (coords demo_residue) /\
    @match_atoms demo_lib demo_protein demo_residue = Ok (Some dmap) /\
    @linear_sum_assignment demo_lib (pairwise (positions demo_protein) sub)
      = Ok (seq 0 3, dmap) /\
    Permutation dmap (seq 0 3) /\
    rearranged (positions demo_protein) sub dmap.
Proof.
  apply (@match_atoms_recovers_an_exact_rearrangement demo_lib demo_protein
           demo_residue 3 [(2, 0, 0); (1, 0, 0); (0, 0, 0)]%R [2; 1; 0]).
  - exact exhaustive_assignment_contract.
  - reflexivity.
  - repeat constructor.
  - now left.
  - change (seq 0 3) with [0; 1; 2].
    apply perm_trans with [1; 2; 0]; [apply perm_swap|].
    apply perm_trans with [1; 0; 2]; [apply perm_skip, perm_swap|].
    apply perm_swap.
  - intros [|[|[|a]]] Ha; simpl in *; try reflexivity; lia.
Defined.

End MatchAtomsFacts.

(** ** The site screen, further: which residues and pairs are screened *)

Module SiteScreenCoverage.

Import SiteScreen SiteScreenFacts.

Lemma dict_set_keys_in {V} (k k' : Z) (v : V) (d : list (Z * V)) :
  In k' (map fst (dict_set k v d)) <-> k' = k \/ In k' (map fst d).
Proof.
  induction d as [|[k0 v0] t IH]; simpl.
  - split; [intros [<-|[]]; auto | intros [->|[]]; auto].
  - destruct (Z.eqb_spec k k0) as [->|Hne]; simpl.
    + split; [intros [<-|?]; auto | intros [->|[<-|?]]; auto].
    + rewrite IH. split; [intros [?|[?|?]] | intros [?|[?|?]]]; auto.
Qed.

Lemma dict_set_keys_NoDup {V} (k : Z) (v : V) (d : list (Z * V)) :
  NoDup (map fst d) -> NoDup (map fst (dict_set k v d)).
Proof.
  induction d as [|[k0 v0] t IH]; simpl; intros Hnd.
  - repeat constructor. intros [].
  - inversion Hnd as [|? ? Hnotin Hnd']; subst.
    destruct (Z.eqb_spec k k0) as [->|Hne]; simpl.
    + now constructor.
    + constructor; auto.
      rewrite dict_set_keys_in. intros [?|?]; [congruence | contradiction].
Qed.

Lemma dict_get_missing {V} (d : list (Z * V)) (k : Z) :
  ~ In k (map fst d) -> dict_get d k = Raise KeyError.
Proof.
  induction d as [|[k0 v0] t IH]; simpl; auto.
  intros Hnotin. destruct (Z.eqb_spec k k0) as [->|Hne].
  - exfalso; apply Hnotin; now left.
  - apply IH. intros Hin; apply Hnotin; now right.
Qed.

Lemma NoDup_map_pair {A} (x : A) (t : list A) :
  NoDup t -> NoDup (map (pair x) t).
Proof.
  induction 1 as [|y t Hy Ht IH]; simpl; constructor; auto.
  intros Hin. apply in_map_iff in Hin as (z & Heq & Hz).
  injection Heq as ->. contradiction.
Qed.

Lemma combinations2_ordered {A} (xs : list A) :
  NoDup xs ->
  NoDup (combinations2 xs) /\
  forall a b, In (a, b) (combinations2 xs) ->
    a <> b /\ ~ In (b, a) (combinations2 xs).
Proof.
  induction xs as [|x t IH]; simpl; intros Hnd.
  - split; [constructor | intros ? ? []].
  - inversion Hnd as [|? ? Hx Hnd']; subst.
    destruct (IH Hnd') as (Hnd2 & Hord). split.
    + apply NoDup_app.
      * now apply NoDup_map_pair.
      * assumption.
      * intros [a b] Hin1 Hin2.
        apply in_map_iff in Hin1 as (y & Heq & _). injection Heq as <- <-.
        apply combinations2_members in Hin2 as (Hin2 & _). contradiction.
    + intros a b Hin. apply in_app_or in Hin as [Hin|Hin].
      * apply in_map_iff in Hin as (y & Heq & Hy). injection Heq as <- <-.
        split; [intros ->; contradiction|].
        intros Hba. apply in_app_or in Hba as [Hba|Hba].
        -- apply in_map_iff in Hba as (z & Heq & _).
           injection Heq as <- _. contradiction.
        -- apply combinations2_members in Hba as (_ & Hba). contradiction.
      * destruct (Hord a b Hin) as (Hab & Hnot). split; auto.
        intros Hba. apply in_app_or in Hba as [Hba|Hba]; auto.
        apply in_map_iff in Hba as (z & Heq & _). injection Heq as <- _.
        apply combinations2_members in Hin as (_ & Hin). contradiction.
Qed.

Section Notebook.

Context {inputs : Inputs}.

Lemma possible_residues_spec (res : Z) :
  In res possible_residues <->
  In res resnums /\ (get_site_volume res > 100)%R.
Proof.
  unfold possible_residues; rewrite in_map_iff; split.
  - intros (i & <- & Hi).
    destruct (select_idxs_spec i Hi) as (Hlt & Hvol).
    rewrite vols_nth in Hvol by assumption.
    split; auto. now apply nth_In.
  - intros (Hin & Hvol).
    destruct (In_nth _ _ 0%Z Hin) as (i & Hlt & Hnth).
    exists i; split; auto.
    unfold select_idxs. apply filter_In; split.
    + apply in_seq. unfold vols. rewrite length_map. lia.
    + rewrite vols_nth, Hnth by assumption.
      destruct (Rgt_dec (get_site_volume res) 100); auto.
Qed.

Lemma SLs_keys :
  NoDup (map fst SLs) /\
  forall res, In res (map fst SLs) <-> In res possible_residues.
Proof.
  unfold SLs, possible_residues. rewrite combine_map_same.
  set (entry := fun i => (nth i resnums 0%Z, nth i vols 0%R)).
  assert (Hgen : forall idxs (d : list (Z * (RotamerEnsemble * R))),
             NoDup (map fst d) ->
             let d' := fold_left
                         (fun d '(res, vol) =>
                            dict_set res (SpinLabel res, vol) d)
                         (map entry idxs) d in
             NoDup (map fst d') /\
             forall res, In res (map fst d') <->
               In res (map fst d)
               \/ In res (map (fun i => nth i resnums 0%Z) idxs)).
  { induction idxs as [|i idxs IH]; intros d Hnd; simpl.
    - split; auto. intros res; tauto.
    - destruct (IH (dict_set (nth i resnums 0%Z)
                      (SpinLabel (nth i resnums 0%Z), nth i vols 0%R) d))
        as (Hnd' & Hin').
      + now apply dict_set_keys_NoDup.
      + split; auto. intros res. rewrite Hin', dict_set_keys_in.
        split; [intros [[->|?]|?] | intros [?|[<-|?]]]; auto. }
  destruct (Hgen select_idxs [] (NoDup_nil _)) as (Hnd & Hin).
  split; auto. intros res. rewrite Hin; simpl. tauto.
Qed.

(** X8. The dictionary [SLs] has one key per residue whose site volume
    exceeds 100, and no other key; looking such a residue up gives its
    label and its volume, looking any other residue up is a [KeyError]. *)
Theorem SLs_holds_the_accessible_residues :
  NoDup (map fst SLs) /\
  forall res,
    (In res (map fst SLs) <->
     In res resnums /\ (get_site_volume res > 100)%R) /\
    dict_get SLs res
    = if in_dec Z.eq_dec res (map fst SLs)
      then Ok (SpinLabel res, get_site_volume res)
      else Raise KeyError.
Proof.
  destruct SLs_keys as (Hnd & Hkeys). split; auto.
  intros res. split.
  - now rewrite Hkeys, possible_residues_spec.
  - destruct (in_dec Z.eq_dec res (map fst SLs)) as [Hin|Hnotin].
    + now destruct (SLs_lookup res Hin).
    + now apply dict_get_missing.
Qed.

Lemma screen_exact (perms : list (Z * Z)) :
  (forall perm, In perm perms ->
     In (fst perm) (map fst SLs) /\ In (snd perm) (map fst SLs)) ->
  forall pairs scores,
    scores = map pair_score pairs ->
    screen perms pairs scores
    = Ok (pairs ++ filter kept perms,
          map pair_score (pairs ++ filter kept perms)).
Proof.
  induction perms as [|[res1 res2] rest IH]; intros Hkeys pairs scores Hsc;
    simpl.
  - now rewrite app_nil_r, Hsc.
  - destruct (Hkeys (res1, res2) (or_introl eq_refl)) as (H1 & H2);
      simpl in *.
    destruct (SLs_lookup res1 H1) as (-> & _).
    destruct (SLs_lookup res2 H2) as (-> & _). simpl.
    assert (Hrest : forall perm, In perm rest ->
              In (fst perm) (map fst SLs) /\ In (snd perm) (map fst SLs))
      by (intros; apply Hkeys; now right).
    destruct (Rlt_dec (mean_dist (SpinLabel res1) (SpinLabel res2)) 25)
      eqn:Hdec.
    + assert (Hk : kept (res1, res2) = false)
        by (unfold kept; simpl; now rewrite Hdec).
      rewrite Hk. now apply IH.
    + assert (Hk : kept (res1, res2) = true)
        by (unfold kept; simpl; now rewrite Hdec).
      rewrite Hk. rewrite (IH Hrest (pairs ++ [(res1, res2)])).
      * now rewrite <- app_assoc.
      * subst scores. now rewrite map_app.
Qed.

Lemma screened_exact :
  screened
  = Ok (filter kept (combinations2 (map fst SLs)),
        map pair_score (filter kept (combinations2 (map fst SLs)))).
Proof.
  assert (Hkeys : forall perm, In perm (combinations2 (map fst SLs)) ->
            In (fst perm) (map fst SLs) /\ In (snd perm) (map fst SLs)).
  { intros [a b] Hin; simpl. now apply combinations2_members. }
  exact (@screen_exact _ Hkeys [] [] eq_refl).
Qed.

(** X9. The loop appends exactly the pairs of screened residues that are
    not closer than 25, in the order [combinations] yields them: every pair
    joins two different residues and is appended once, in one order only. *)
Theorem screen_keeps_exactly_the_distant_pairs :
  exists pairs scores,
    screened = Ok (pairs, scores) /\
    pairs = filter kept (combinations2 (map fst SLs)) /\
    length scores = length pairs /\
    NoDup pairs /\
    forall res1 res2,
      (In (res1, res2) pairs <->
       In (res1, res2) (combinations2 (map fst SLs)) /\
       (mean_dist (SpinLabel res1) (SpinLabel res2) >= 25)%R) /\
      (In (res1, res2) pairs -> res1 <> res2 /\ ~ In (res2, res1) pairs).
Proof.
  destruct SLs_keys as (Hnd & _).
  destruct (combinations2_ordered Hnd) as (Hnd2 & Hord).
  eexists _, _; split; [apply screened_exact|].
  split; [reflexivity|]. split; [now rewrite length_map|].
  split; [now apply NoDup_filter|].
  intros res1 res2. rewrite !filter_In. unfold kept; simpl. split.
  - destruct (Rlt_dec (mean_dist (SpinLabel res1) (SpinLabel res2)) 25);
      split; intros (Hin & H); split; auto; try discriminate; lra.
  - intros (Hin & _). destruct (Hord _ _ Hin) as (Hne & Hnot).
    split; auto. intros (Hba & _). contradiction.
Qed.

(** X10. The cell that reports a pair raises exactly when no pair was
    appended, that is when every pair of screened residues is closer than
    25 (so also when fewer than two residues were screened), and then it
    raises [ValueError]; otherwise it reports an appended pair. *)
Theorem report_fails_exactly_without_pairs :
  ((forall perm, In perm (combinations2 (map fst SLs)) -> kept perm = false)
   <-> reported = Raise ValueError) /\
  (length (map fst SLs) <= 1 -> reported = Raise ValueError) /\
  ((exists perm, In perm (combinations2 (map fst SLs)) /\ kept perm = true)
   <-> exists sites, reported = Ok sites).
Proof.
  unfold reported. rewrite screened_exact; simpl.
  set (pairs := filter kept (combinations2 (map fst SLs))).
  assert (Hempty : pairs = []
            <-> forall perm, In perm (combinations2 (map fst SLs)) ->
                  kept perm = false).
  { split.
    - intros Hnil perm Hin. destruct (kept perm) eqn:Hk; auto.
      assert (Hp : In perm pairs) by (apply filter_In; auto).
      rewrite Hnil in Hp; destruct Hp.
    - intros Hall. destruct pairs as [|p ps] eqn:Hp; auto.
      assert (Hin : In p pairs) by (rewrite Hp; now left).
      apply filter_In in Hin as (Hin & Hk).
      rewrite (Hall p Hin) in Hk; discriminate. }
  assert (Hrun : match pairs with
                 | [] => (idx <- argmin (map pair_score pairs) ;;
                          getitem pairs idx) = Raise ValueError
                 | _ :: _ => exists sites,
                     (idx <- argmin (map pair_score pairs) ;;
                      getitem pairs idx) = Ok sites
                 end).
  { destruct pairs as [|p ps] eqn:Hp; [reflexivity|].
    pose proof (argmin_spec (map pair_score (p :: ps))) as Hmin.
    destruct (argmin (map pair_score (p :: ps))) as [idx|e].
    - destruct Hmin as (v & Hv & _). rewrite nth_error_map in Hv.
      simpl. unfold getitem.
      destruct (nth_error (p :: ps) idx) as [sites|]; [|discriminate].
      now exists sites.
    - destruct Hmin as (Hnil & _); discriminate. }
  split; [|split].
  - rewrite <- Hempty. destruct pairs; split; auto; try discriminate.
    destruct Hrun as (sites & ->); discriminate.
  - intros Hfew.
    assert (Hnil : pairs = []).
    { unfold pairs. destruct (map fst SLs) as [|k [|k' ks]]; simpl in *;
        auto; lia. }
    now rewrite Hnil in *.
  - split.
    + intros (perm & Hin & Hk).
      assert (Hp : In perm pairs) by (apply filter_In; auto).
      destruct pairs; [destruct Hp | exact Hrun].
    + intros (sites & Hsites). destruct pairs as [|p ps] eqn:Hp.
      * rewrite Hsites in Hrun; discriminate.
      * assert (Hin : In p pairs) by (rewrite Hp; now left).
        apply filter_In in Hin. now exists p.
Qed.

(** X11. When a label's [site] is the residue it was built at, no score
    divides by zero, and the sign of a pair's score is the sign of the
    difference of its residue numbers: positive when the second residue has
    the larger number, negative otherwise. *)
Theorem score_sign_follows_residue_order :
  (forall res, site (SpinLabel res) = res) ->
  forall res1 res2,
    In (res1, res2) (filter kept (combinations2 (map fst SLs))) ->
    IZR (site (SpinLabel res2) - site (SpinLabel res1)) <> 0%R /\
    ((res1 < res2)%Z -> (0 < pair_score (res1, res2))%R) /\
    ((res2 < res1)%Z -> (pair_score (res1, res2) < 0)%R).
Proof.
  intros Hsite res1 res2 Hin.
  apply filter_In in Hin as (Hin & Hk).
  destruct SLs_keys as (Hnd & _).
  destruct (combinations2_ordered Hnd) as (_ & Hord).
  destruct (Hord _ _ Hin) as (Hne & _).
  unfold kept in Hk; simpl in Hk.
  destruct (Rlt_dec (mean_dist (SpinLabel res1) (SpinLabel res2)) 25)
    as [|Hd]; [discriminate|].
  unfold pair_score, score; simpl. rewrite !Hsite.
  set (d := mean_dist (SpinLabel res1) (SpinLabel res2)) in *.
  set (c := Rpower _ _).
  assert (Hc : (0 < c)%R) by apply exp_pos.
  assert (Hic : (0 < / c)%R) by now apply Rinv_0_lt_compat.
  assert (Hd' : (0 < d)%R) by lra.
  split; [|split].
  - intros H0. apply eq_IZR_R0 in H0. lia.
  - intros Hlt. assert (Hz : (0 < IZR (res2 - res1))%R)
      by (apply IZR_lt; lia).
    apply Rinv_0_lt_compat in Hz. unfold Rdiv.
    apply Rmult_lt_0_compat; auto. now apply Rmult_lt_0_compat.
  - intros Hgt. assert (Hz : (IZR (res2 - res1) < 0)%R)
      by (apply IZR_lt; lia).
    apply Rinv_lt_0_compat in Hz. unfold Rdiv.
    assert (Hdz : (d * / IZR (res2 - res1) < 0)%R) by nra.
    nra.
Qed.

End Notebook.

Lemma demo_screen_SLs :
  @SLs demo_screen
  = map (fun res => (res, (@SpinLabel demo_screen res, 200%R)))
      [4; 60; 159]%Z.
Proof.
  unfold SLs, possible_residues, select_idxs, vols; simpl.
  destruct (Rgt_dec 200 100) as [_|H]; [reflexivity | exfalso; lra].
Qed.

Lemma demo_screen_kept : @kept demo_screen (4, 159)%Z = true.
Proof.
  unfold kept, mean_dist, norm, vsub, vx, vy, vz; simpl.
  destruct (Rlt_dec _ 25) as [Hlt|]; [exfalso | reflexivity].
  assert (H25 : sqrt (25 * 25) = 25%R) by (apply sqrt_square; lra).
  assert (Hle : (sqrt (25 * 25)
                 <= sqrt ((4 - 159) * (4 - 159) + (0 - 0) * (0 - 0)
                          + (0 - 0) * (0 - 0)))%R)
    by (apply sqrt_le_1_alt; lra).
  lra.
Qed.

Lemma score_sign_follows_residue_order_witness :
  IZR (site (@SpinLabel demo_screen 159) - site (@SpinLabel demo_screen 4))
  <> 0%R /\
  ((4 < 159)%Z -> (0 < @pair_score demo_screen (4, 159)%Z)%R) /\
  ((159 < 4)%Z -> (@pair_score demo_screen (4, 159)%Z < 0)%R).
Proof.
  apply (@score_sign_follows_residue_order demo_screen).
  - reflexivity.
  - apply filter_In; split; [|exact demo_screen_kept].
    rewrite demo_screen_SLs; simpl. right; now left.
Defined.

End SiteScreenCoverage.

(** ** The membrane docking, further: centring and the perfect fit *)

Module MembraneDockingCoverage.

Import MembraneDocking MembraneDockingFacts PairingFacts MatchAtomsFacts.

Lemma sum_shifted {A} (f : A -> R) (c : R) (l : list A) :
  Np.sum (map (fun a => (f a + c)%R) l)
  = (Np.sum (map f l) + INR (length l) * c)%R.
Proof.
  induction l as [|a l IH].
  - simpl. unfold Np.sum; simpl. ring.
  - change (map (fun a0 => (f a0 + c)%R) (a :: l))
      with ((f a + c)%R :: map (fun a0 => (f a0 + c)%R) l).
    change (map f (a :: l)) with (f a :: map f l).
    rewrite !sum_cons, IH.
    change (length (a :: l)) with (S (length l)). rewrite S_INR. ring.
Qed.

Lemma sum_of_zeros (xs : list R) :
  Forall (fun x => x = 0%R) xs -> Np.sum xs = 0%R.
Proof.
  induction 1 as [|x xs Hx Hxs IH].
  - reflexivity.
  - rewrite sum_cons, IH, Hx. ring.
Qed.

(** The mean of shifted points is the shifted mean. *)
Lemma mean0_shifted (t : vec3) (cs : list vec3) :
  cs <> [] ->
  mean0 (map (fun p => vadd p t) cs) = vadd (mean0 cs) t.
Proof.
  intros Hne. unfold mean0, vadd. rewrite length_map, !map_map.
  assert (Hn : INR (length cs) <> 0%R).
  { apply not_0_INR. destruct cs; [congruence | discriminate]. }
  assert (Hx : forall proj : vec3 -> R,
             (Np.sum (map (fun p => (proj p + proj t)%R) cs) / INR (length cs)
              = Np.sum (map proj cs) / INR (length cs) + proj t)%R).
  { intros proj. rewrite sum_shifted. now field. }
  unfold vx, vy, vz in *; simpl.
  rewrite (Hx (fun p => fst (fst p))), (Hx (fun p => snd (fst p))),
    (Hx (fun p => snd p)).
  reflexivity.
Qed.

Section Notebook.

Context {inputs : Inputs}.

Lemma objective_unfolded (par : R * R * R * R) :
  objective par
  = Np.sum (map (fun vd => Rsqr (depth_error par (fst vd) (snd vd)))
              (combine spin_at_ori depths)).
Proof.
  destruct par as [[[x y] z] zdepth].
  unfold objective, dot, sub_arrays.
  rewrite combine_same, !map_map, combine_map_l, !map_map; simpl.
  reflexivity.
Qed.

(** X12. The centroids handed to the objective are centred: over the sites
    their coordinates sum to zero along every axis. *)
Theorem spin_at_ori_is_centred :
  Np.sum (map vx spin_at_ori) = 0%R /\
  Np.sum (map vy spin_at_ori) = 0%R /\
  Np.sum (map vz spin_at_ori) = 0%R.
Proof.
  unfold spin_at_ori. generalize spin_centroids as cs. intros cs.
  assert (Hcases : cs = [] \/ INR (length cs) <> 0%R).
  { destruct cs; [now left | right]. apply not_0_INR. discriminate. }
  destruct Hcases as [->|Hn]; [repeat split; reflexivity|].
  rewrite !map_map.
  assert (Hx : forall proj : vec3 -> R,
             Np.sum (map (fun p => (proj p + - (Np.sum (map proj cs)
                                               / INR (length cs)))%R) cs)
             = 0%R).
  { intros proj. rewrite sum_shifted. now field. }
  split; [|split].
  - etransitivity; [|exact (Hx vx)].
    first [reflexivity
          | f_equal; apply map_ext; intros p;
            unfold vsub, mean0, vx; simpl; ring].
  - etransitivity; [|exact (Hx vy)].
    first [reflexivity
          | f_equal; apply map_ext; intros p;
            unfold vsub, mean0, vy; simpl; ring].
  - etransitivity; [|exact (Hx vz)].
    first [reflexivity
          | f_equal; apply map_ext; intros p;
            unfold vsub, mean0, vz; simpl; ring].
Qed.

(** X14. The objective vanishes exactly when the fit is perfect: at every
    site the depth of the moved centroid is the measured depth. *)
Theorem objective_vanishes_at_a_perfect_fit (par : R * R * R * R) :
  objective par = 0%R <->
  forall v depth, In (v, depth) (combine spin_at_ori depths) ->
    depth_error par v depth = 0%R.
Proof.
  rewrite objective_unfolded. split.
  - intros Hsum v depth Hin.
    apply sum_zero_terms in Hsum.
    + rewrite Forall_forall in Hsum.
      apply Rsqr_0_uniq. apply Hsum.
      apply in_map_iff. now exists (v, depth).
    + apply Forall_forall. intros r Hr.
      apply in_map_iff in Hr as (vd & <- & _). apply Rle_0_sqr.
  - intros Hall. apply sum_of_zeros, Forall_forall. intros r Hr.
    apply in_map_iff in Hr as ([v depth] & <- & Hin); simpl.
    rewrite (Hall v depth Hin). apply Rsqr_0.
Qed.

End Notebook.

(** X13. Moving every spin centroid by one and the same vector leaves the
    objective as it is: the centroids are centred before they are rotated,
    so only their positions relative to each other are fitted.  The
    equality is one of real numbers; in [float64] the two values agree up
    to rounding. *)
Theorem objective_ignores_a_common_shift
  (inputs inputs' : Inputs) (t : vec3) (par : R * R * R * R) :
  @table inputs = @table inputs' ->
  @from_euler_xyz inputs = @from_euler_xyz inputs' ->
  (forall at_site,
     spin_centroid (@SpinLabel inputs' at_site)
     = vadd (spin_centroid (@SpinLabel inputs at_site)) t) ->
  @objective inputs' par = @objective inputs par.
Proof.
  intros Htable Heuler Hshift.
  assert (Hcs : @spin_centroids inputs'
                = map (fun p => vadd p t) (@spin_centroids inputs)).
  { unfold spin_centroids, label_list, sites.
    rewrite Htable, !map_map. now apply map_ext. }
  assert (Hori : @spin_at_ori inputs' = @spin_at_ori inputs).
  { unfold spin_at_ori. rewrite Hcs.
    destruct (@spin_centroids inputs) as [|c cs] eqn:Hc; [reflexivity|].
    rewrite mean0_shifted by discriminate.
    rewrite map_map. apply map_ext. intros [[x y] z].
    destruct (mean0 (c :: cs)) as [[mx my] mz], t as [[tx ty] tz].
    unfold vsub, vadd, vx, vy, vz; simpl.
    f_equal; [f_equal|]; ring. }
  unfold objective, depths. now rewrite Hori, Htable, Heuler.
Qed.

Lemma objective_ignores_a_common_shift_witness :
  @objective
    (demo_fit (fun s => Repository.label_at 0
                          (vadd (s, 2 * s, 0)%R (1, 2, 3)%R)))
    (0, 0, 0, 7)%R
  = @objective
      (demo_fit (fun s => Repository.label_at 0 (s, 2 * s, 0)%R))
      (0, 0, 0, 7)%R.
Proof.
  apply (@objective_ignores_a_common_shift
           (demo_fit (fun s => Repository.label_at 0 (s, 2 * s, 0)%R))
           (demo_fit (fun s => Repository.label_at 0
                                 (vadd (s, 2 * s, 0)%R (1, 2, 3)%R)))
           (1, 2, 3)%R); reflexivity.
Defined.

End MembraneDockingCoverage.

(** ** The cells, further: what notebook 12 needs from its kernel *)

Module KernelCoverage.

Import Kernel KernelFacts.

Lemma bound_cons (ns : namespace) (a name : string) :
  bound (a :: ns) name = (String.eqb name a || bound ns name)%bool.
Proof. reflexivity. Qed.

(** A statement of an error-free run goes through exactly when every name
    it reads is bound. *)
Lemma completes_step (ns : namespace) (st : statement)
  (rest : list statement) :
  completes (run no_error ns (st :: rest))
  = forallb (bound ns) (reads st)
    && completes (run no_error (binds st ++ ns) rest).
Proof.
  cbn [run]. unfold exec, no_error.
  induction (reads st) as [|name names IH]; [reflexivity|].
  cbn [find forallb].
  destruct (bound ns name); cbn [negb andb]; [exact IH | reflexivity].
Qed.

(** X15. Whatever the kernel holds when notebook 12 is run, the run
    completes exactly when both [labels] and [prot] are bound beforehand:
    these are the only names the notebook reads without binding them. *)
Theorem arbitrary_labels_needs_labels_and_prot (ns : namespace) :
  completes (run no_error ns (concat arbitrary_labels))
  = bound ns "labels" && bound ns "prot".
Proof.
  cbn [concat arbitrary_labels app].
  repeat (rewrite completes_step;
          cbn [reads binds stmt forallb app andb];
          rewrite ?bound_cons;
          cbn [String.eqb Ascii.eqb Bool.eqb orb andb]).
  cbn [run completes].
  destruct (bound ns "labels"), (bound ns "prot"); reflexivity.
Qed.

End KernelCoverage.
